(** * GPIO loopback latency meter: a shallow embedding

    The development follows the two Python sources of the repository:
    [latency_meter.py] (statistics, pulse generator, pairing loop, exit
    status) and [sim_backend.py] (latency model, simulated output line).

    Conventions used throughout:
    - Python [int] is [Z]; timestamps and sequence numbers are [Z].
    - Python [float] is idealised as a real number ([R]); rounding and
      overflow of IEEE doubles are outside the model.
    - A call that raises is modelled by [None]. *)

From Stdlib Require Import String Ascii DecimalString DecimalZ.
From Stdlib Require Import ZArith List Lia Bool Reals Lra Sorted Permutation.
Import ListNotations.

Local Open Scope Z_scope.

(* ================================================================== *)
(** * Part I: definitions *)
(* ================================================================== *)

(** ** Statistics engine ([latency_meter.py], [compute_full_stats]) *)

Module Stats.

(** One entry of the list handed to [compute_full_stats]: [None], the float
    NaN, or an integer number of nanoseconds. *)
Inductive dt : Type :=
| Absent
| NaN
| Val (z : Z).

(** [@dataclass LatencyResult]. *)
Record LatencyResult : Type := mkResult {
  total_samples : Z;
  successful_samples : Z;
  missed_samples : Z;
  p50_ns : R;
  p95_ns : R;
  p99_ns : R;
  max_ns : Z;
  min_ns : Z;
  mean_ns : R;
  std_ns : R
}.

(** The three conjuncts of the comprehension's filter
    [dt is not None and not np.isnan(dt) and dt >= 0].  Python's [and] is
    short-circuit, so the later tests are never run on [None]. *)
Definition is_not_none (d : dt) : bool :=
  match d with Absent => false | _ => true end.

Definition np_isnan (d : dt) : bool :=
  match d with NaN => true | _ => false end.

Definition ge_zero (d : dt) : bool :=
  match d with Val z => 0 <=? z | _ => false end.

Definition keep (d : dt) : bool :=
  is_not_none d && negb (np_isnan d) && ge_zero d.

(** [valid_dts = [dt for dt in dts_ns if ...]]. *)
Definition valid_dts (dts_ns : list dt) : list dt := filter keep dts_ns.

(** Range of [np.int64]. *)
Definition int64_min : Z := - 2 ^ 63.
Definition int64_max : Z := 2 ^ 63 - 1.

Definition in_int64 (z : Z) : bool := (int64_min <=? z) && (z <=? int64_max).

(** [np.array(valid_dts, dtype=np.int64)]: an integer out of the 64-bit range
    raises [OverflowError]; [None] and NaN cannot be converted either. *)
Fixpoint np_array_int64 (l : list dt) : option (list Z) :=
  match l with
  | [] => Some []
  | Val z :: r =>
      if in_int64 z then
        match np_array_int64 r with
        | Some a => Some (z :: a)
        | None => None
        end
      else None
  | _ :: _ => None
  end.

(** Ascending sort, as [np.percentile] orders its data. *)
Fixpoint insert_sorted (x : Z) (s : list Z) : list Z :=
  match s with
  | [] => [x]
  | y :: r => if x <=? y then x :: s else y :: insert_sorted x r
  end.

Fixpoint np_sort (l : list Z) : list Z :=
  match l with
  | [] => []
  | x :: r => insert_sorted x (np_sort r)
  end.

Definition nthZ (s : list Z) (i : Z) : Z := nth (Z.to_nat i) s 0.

(** [np.percentile(arr, q)] for an integer percentage [q], NumPy's default
    method "linear": the virtual index is [(n - 1) * q / 100]; the result
    interpolates between the sorted elements below and above it, the upper
    index clipped to the last element. *)
Definition np_percentile (arr : list Z) (q : Z) : R :=
  let s := np_sort arr in
  let n := Z.of_nat (length s) in
  let t := (n - 1) * q in
  let lo := t / 100 in
  let hi := Z.min (lo + 1) (n - 1) in
  let gamma := (IZR (t mod 100) / 100)%R in
  (IZR (nthZ s lo) + gamma * (IZR (nthZ s hi) - IZR (nthZ s lo)))%R.

(** [arr.max()] and [arr.min()] (only called on a non-empty array). *)
Definition np_max (arr : list Z) : Z :=
  match arr with
  | [] => 0
  | x :: r => fold_left Z.max r x
  end.

Definition np_min (arr : list Z) : Z :=
  match arr with
  | [] => 0
  | x :: r => fold_left Z.min r x
  end.

Definition np_sum (arr : list Z) : Z := fold_left Z.add arr 0.

(** [arr.mean()]. *)
Definition np_mean (arr : list Z) : R :=
  (IZR (np_sum arr) / IZR (Z.of_nat (length arr)))%R.

(** [arr.std()]: the population standard deviation. *)
Definition np_std (arr : list Z) : R :=
  let m := np_mean arr in
  sqrt (fold_left (fun acc x => acc + (IZR x - m) * (IZR x - m)) arr 0
        / IZR (Z.of_nat (length arr)))%R.

(** [compute_full_stats(dts_ns)]. *)
Definition compute_full_stats (dts_ns : list dt) : option LatencyResult :=
  let total := Z.of_nat (length dts_ns) in
  let valid := valid_dts dts_ns in
  let successful := Z.of_nat (length valid) in
  let missed := total - successful in
  match valid with
  | [] => Some (mkResult total 0 missed 0 0 0 0 0 0 0)
  | _ :: _ =>
      match np_array_int64 valid with
      | None => None
      | Some arr =>
          Some (mkResult total successful missed
                  (np_percentile arr 50) (np_percentile arr 95)
                  (np_percentile arr 99)
                  (np_max arr) (np_min arr) (np_mean arr) (np_std arr))
      end
  end.

(** *** Notions used to state the properties *)


(** An entry that [np.int64] can hold if it has to. *)
Definition fits (d : dt) : Prop :=
  match d with
  | Val z => z <= int64_max
  | _ => True
  end.

(** An entry that is a non-negative number. *)
Definition valid (d : dt) : Prop :=
  match d with
  | Val z => 0 <= z
  | _ => False
  end.

End Stats.

(** ** Pairing engine ([latency_meter.py], the orchestrator loop of [main]) *)

Module Pairing.

(** A Python [dict] from sequence number to timestamp.  Python dicts keep
    insertion order, which fixes the order of the miss samples. *)
Definition dict : Type := list (Z * Z).

(** [k in d] and the value stored under [k]. *)
Fixpoint dict_get (k : Z) (d : dict) : option Z :=
  match d with
  | [] => None
  | (k', v) :: r => if k =? k' then Some v else dict_get k r
  end.

(** [d[k] = v]: an existing key keeps its place, a new key goes last. *)
Fixpoint dict_set (k v : Z) (d : dict) : dict :=
  match d with
  | [] => [(k, v)]
  | (k', v') :: r => if k =? k' then (k, v) :: r else (k', v') :: dict_set k v r
  end.

(** What [d.pop(k)] leaves in [d]. *)
Fixpoint dict_remove (k : Z) (d : dict) : dict :=
  match d with
  | [] => []
  | (k', v) :: r => if k =? k' then r else (k', v) :: dict_remove k r
  end.

(** [{k: v for k, v in d.items() if k > old_threshold}]. *)
Definition dict_newer (old_threshold : Z) (d : dict) : dict :=
  filter (fun kv => old_threshold <? fst kv) d.

Definition keys (d : dict) : list Z := map fst d.

(** A sample is the tuple [(ts_send, ts_edge, dt)], the last two [None] for a
    miss.  [sample_seq] is a ghost field: the value of the loop variable
    [seq] when the tuple was appended.  The program does not store it; the
    statements about sequence numbers need it. *)
Record Sample : Type := mkSample {
  sample_seq : Z;
  ts_send : Z;
  ts_edge : option Z;
  dt_ns : option Z
}.

Definition hit (seq ts_s ts_e : Z) : Sample :=
  mkSample seq ts_s (Some ts_e) (Some (ts_e - ts_s)).

Definition miss (seq ts_s : Z) : Sample :=
  mkSample seq ts_s None None.

(** The tuple the program really holds. *)
Definition erase (s : Sample) : Z * option Z * option Z :=
  (ts_send s, ts_edge s, dt_ns s).

(** The orchestrator's working state. *)
Record state : Type := mkState {
  samples : list Sample;
  send_buffer : dict;
  edge_buffer : dict
}.

Definition init : state := mkState [] [] [].

(** What one iteration of the measuring loop observes: the result of
    [sends_q.get(timeout=0.1)] and of [edges_q.get_nowait()] ([None] for
    [queue.Empty]), and the value of the shared [seq_counter[0]] read by
    the clean-up. *)
Record main_iter : Type := mkMain {
  got_send : option (Z * Z);
  got_edge : option (Z * Z);
  seq_counter : Z
}.

(** One iteration of the final drain: two [get_nowait] results. *)
Record drain_iter : Type := mkDrain {
  drained_send : option (Z * Z);
  drained_edge : option (Z * Z)
}.

(** "Process sends" of the measuring loop. *)
Definition process_send (st : state) (rec : Z * Z) : state :=
  let (seq, ts_s) := rec in
  let sb := dict_set seq ts_s (send_buffer st) in
  match dict_get seq (edge_buffer st) with
  | Some ts_e =>
      mkState (samples st ++ [hit seq ts_s ts_e]) sb
              (dict_remove seq (edge_buffer st))
  | None => mkState (samples st) sb (edge_buffer st)
  end.

(** "Process edges" of the measuring loop. *)
Definition process_edge (st : state) (rec : Z * Z) : state :=
  let (seq, ts_e) := rec in
  match dict_get seq (send_buffer st) with
  | Some ts_s =>
      mkState (samples st ++ [hit seq ts_s ts_e])
              (dict_remove seq (send_buffer st)) (edge_buffer st)
  | None =>
      mkState (samples st) (send_buffer st)
              (dict_set seq ts_e (edge_buffer st))
  end.

(** "Clean up old unmatched items". *)
Definition cleanup (st : state) (current_seq : Z) : state :=
  if Z.of_nat (length (samples st)) mod 1000 =? 0 then
    let old_threshold := current_seq - 10000 in
    mkState (samples st)
            (dict_newer old_threshold (send_buffer st))
            (dict_newer old_threshold (edge_buffer st))
  else st.

Definition on_some {A : Type} (f : state -> A -> state) (st : state)
    (o : option A) : state :=
  match o with
  | Some a => f st a
  | None => st
  end.

(** One iteration of [while not stop.is_set() and ...]. *)
Definition main_step (st : state) (it : main_iter) : state :=
  let st1 := on_some process_send st (got_send it) in
  let st2 := on_some process_edge st1 (got_edge it) in
  cleanup st2 (seq_counter it).

Definition main_loop (its : list main_iter) (st : state) : state :=
  fold_left main_step its st.

(** The two halves of a drain iteration. *)
Definition drain_send (st : state) (rec : Z * Z) : state :=
  let (seq, ts_s) := rec in
  mkState (samples st) (dict_set seq ts_s (send_buffer st)) (edge_buffer st).

Definition drain_edge (st : state) (rec : Z * Z) : state :=
  let (seq, ts_e) := rec in
  match dict_get seq (send_buffer st) with
  | Some ts_s =>
      mkState (samples st ++ [hit seq ts_s ts_e])
              (dict_remove seq (send_buffer st)) (edge_buffer st)
  | None => st
  end.

Definition drain_step (st : state) (it : drain_iter) : state :=
  on_some drain_edge (on_some drain_send st (drained_send it))
          (drained_edge it).

Definition processed_any (it : drain_iter) : bool :=
  match drained_send it, drained_edge it with
  | None, None => false
  | _, _ => true
  end.

(** "Process any remaining pairs": the loop ends when the list of
    iterations is exhausted (the one-second deadline) or when an iteration
    found both queues empty. *)
Fixpoint drain_loop (its : list drain_iter) (st : state) : state :=
  match its with
  | [] => st
  | it :: rest =>
      if processed_any it then drain_loop rest (drain_step st it) else st
  end.

(** "Add missed samples". *)
Definition add_misses (st : state) : list Sample :=
  samples st ++ map (fun kv => miss (fst kv) (snd kv)) (send_buffer st).

(** The sample list the orchestrator ends with. *)
Definition pairing (main : list main_iter) (drain : list drain_iter)
    : list Sample :=
  add_misses (drain_loop drain (main_loop main init)).

(** *** Notions used to state the properties *)

(** The records the orchestrator took from each queue, in order. *)
Definition somes {A : Type} (l : list (option A)) : list A :=
  flat_map (fun o => match o with Some a => [a] | None => [] end) l.

(** Drain iterations that are really run. *)
Fixpoint drain_run (its : list drain_iter) : list drain_iter :=
  match its with
  | [] => []
  | it :: rest => if processed_any it then it :: drain_run rest else []
  end.

Definition sends_of (main : list main_iter) (drain : list drain_iter)
    : list (Z * Z) :=
  somes (map got_send main) ++ somes (map drained_send (drain_run drain)).

Definition edges_of (main : list main_iter) (drain : list drain_iter)
    : list (Z * Z) :=
  somes (map got_edge main) ++ somes (map drained_edge (drain_run drain)).

(** Number of samples that stand for sequence number [q]. *)
Definition count_seq (q : Z) (ss : list Sample) : nat :=
  length (filter (fun s => sample_seq s =? q) ss).

(** No clean-up of the run can evict a buffered send: every send record
    taken in the measuring loop has a sequence number above
    [seq_counter - 10000], for every value of the counter a clean-up
    reads. *)
Definition within_window (main : list main_iter) : bool :=
  forallb (fun it =>
             forallb (fun q => seq_counter it - 10000 <? q)
                     (map fst (somes (map got_send main))))
          main.

(** In the measuring loop no send record is taken from its queue in a later
    iteration than an edge record with the same sequence number; [seen]
    holds the sequence numbers of the edges of the earlier iterations. *)
Fixpoint sends_first_from (seen : list Z) (main : list main_iter) : bool :=
  match main with
  | [] => true
  | it :: rest =>
      match got_send it with
      | Some rec => negb (existsb (Z.eqb (fst rec)) seen)
      | None => true
      end
      && sends_first_from (seen ++ map fst (somes [got_edge it])) rest
  end.

Definition sends_first (main : list main_iter) : bool :=
  sends_first_from [] main.

(** Two runs used below.  [edge_first]: the edge record of pulse 0 is taken
    from its queue one iteration before the send record of pulse 0.
    [broken_loopback]: 10000 pulses and no edge at all; iteration [i] takes
    the send record of pulse [i] when the generator has issued [i + 1]
    pulses. *)
Definition edge_first : list main_iter :=
  [mkMain None (Some (0, 150)) 1; mkMain (Some (0, 100)) None 1].



End Pairing.

(** ** Pulse generator ([latency_meter.py], the thread function [toggler]) *)

Module Toggler.

(** The calls of the thread that leave it: queue puts and output-line
    commands, each with whether it succeeded, and the warnings printed. *)
Inductive event : Type :=
| Put (seq ts : Z)          (* sends_q.put_nowait((seq, ts_send)) returned *)
| PutFull (seq ts : Z)      (* the same call raised queue.Full *)
| SetValue (v : Z)          (* outl.set_value(v) returned *)
| SetValueFailed (v : Z)    (* outl.set_value(v) raised *)
| Warn.                     (* a line printed to stderr *)

(** What one cycle meets: the loop condition, the stop flag after the
    busy-wait, the clock reading taken as [ts_send], and the behaviour of
    the queue and of the output line. *)
Record cycle_env : Type := mkEnv {
  loop_running : bool;
  stop_after_wait : bool;
  now_at_send : Z;
  queue_full : bool;
  high_raises : bool;
  low_raises : bool
}.

(** The thread's state: the shared counter [seq_counter[0]], the local
    [last_val], and the calls made so far. *)
Record tstate : Type := mkT {
  seq_counter : Z;
  last_val : Z;
  log : list event
}.

Definition start : tstate := mkT 0 0 [].

(** How a cycle leaves the loop body. *)
Inductive flow : Type := Continue | Break.

Definition emit (evs : list event) (st : tstate) : tstate :=
  mkT (seq_counter st) (last_val st) (log st ++ evs).

Definition bump (st : tstate) : tstate :=
  mkT (seq_counter st + 1) (last_val st) (log st).

Definition set_last (v : Z) (st : tstate) : tstate :=
  mkT (seq_counter st) v (log st).

(** One pass through the body of the [while] loop, after the sleep and the
    busy-wait. *)
Definition cycle (st : tstate) (e : cycle_env) : tstate * flow :=
  if stop_after_wait e then (st, Break)
  else
    let ts_send := now_at_send e in
    let seq := seq_counter st in
    let st := bump st in
    if queue_full e then (emit [PutFull seq ts_send; Warn] st, Continue)
    else
      let st := emit [Put seq ts_send] st in
      if high_raises e then (emit [SetValueFailed 1; Warn] st, Continue)
      else
        let st := set_last 1 (emit [SetValue 1] st) in
        if low_raises e then (emit [SetValueFailed 0; Warn] st, Continue)
        else (set_last 0 (emit [SetValue 0] st), Continue).

(** The whole thread: cycles until the loop condition fails, a [break], or
    the end of the observed run. *)
Fixpoint toggler (envs : list cycle_env) (st : tstate) : tstate :=
  match envs with
  | [] => st
  | e :: rest =>
      if loop_running e then
        match cycle st e with
        | (st', Continue) => toggler rest st'
        | (st', Break) => st'
        end
      else st
  end.

(** The SendRecords put on the queue, in order. *)
Definition puts (l : list event) : list (Z * Z) :=
  flat_map (fun ev => match ev with Put s t => [(s, t)] | _ => [] end) l.

(** *** Notions used to state the properties *)

(** [a] occurs in [l] strictly before [b]. *)
Definition occurs_before (a b : event) (l : list event) : Prop :=
  exists i j, (i < j)%nat /\ nth_error l i = Some a /\ nth_error l j = Some b.

(** A call commanding the output line high, whether it returned or raised. *)
Definition is_high (ev : event) : Prop :=
  ev = SetValue 1 \/ ev = SetValueFailed 1.

(** The sequence numbers the thread used, for the records it put and for
    those the full queue refused, in order. *)
Definition attempts (l : list event) : list Z :=
  flat_map (fun ev => match ev with
                      | Put s _ => [s]
                      | PutFull s _ => [s]
                      | _ => []
                      end) l.

(** The levels of the [set_value] calls that returned, in order. *)
Definition commands (l : list event) : list Z :=
  flat_map (fun ev => match ev with SetValue v => [v] | _ => [] end) l.

End Toggler.

(** ** End of [main]: analysis and exit status ([latency_meter.py]) *)

Module Report.

(** How [main] ends: [sys.exit(status)] (directly, or through
    [sys.exit(main())]), or an exception that nothing catches. *)
Inductive outcome : Type :=
| Exit (status : Z)
| Uncaught.

(** [dts = [dt for (_, _, dt) in samples if dt is not None]]. *)
Definition dts_of (samples : list Pairing.Sample) : list Stats.dt :=
  flat_map (fun s => match Pairing.dt_ns s with
                     | Some d => [Stats.Val d]
                     | None => []
                     end) samples.

(** The "Analysis" part of [main], from [if not samples] to the final
    [return]; printing and the CSV file do not change the status. *)
Definition main_exit (samples : list Pairing.Sample) : outcome :=
  match samples with
  | [] => Exit 2
  | _ :: _ =>
      match Stats.compute_full_stats (dts_of samples) with
      | None => Uncaught
      | Some stats =>
          Exit (if 0 <? Stats.successful_samples stats then 0 else 1)
      end
  end.

(** *** Notions used to state the properties *)

(** A sample that has a delta, and one whose delta is negative. *)
Definition has_dt (s : Pairing.Sample) : bool :=
  match Pairing.dt_ns s with Some _ => true | None => false end.

Definition negative_dt (s : Pairing.Sample) : bool :=
  match Pairing.dt_ns s with Some d => d <? 0 | None => false end.

End Report.

(** ** Simulator ([sim_backend.py]) *)

Module Sim.

(** The interface of [random.Random] the latency model uses.  The generator
    is outside the repository; its state is threaded explicitly.  The only
    law assumed is the documented range of [randint]. *)
Class RandomSource : Type := {
  rng : Type;
  Random : option Z -> rng;                 (* random.Random(seed) *)
  randint : Z -> Z -> rng -> Z * rng;       (* rng.randint(a, b) *)
  gauss : R -> R -> rng -> R * rng;         (* rng.gauss(mu, sigma) *)
  random : rng -> R * rng;                  (* rng.random() *)
  randint_range : forall a b g, a <= b -> a <= fst (randint a b g) <= b
}.

(** A small deterministic generator (a linear congruential one), to run the
    model on concrete inputs. *)
Definition lcg_next (g : Z) : Z := (1103515245 * g + 12345) mod 2 ^ 31.

Definition lcg_randint (a b g : Z) : Z * Z :=
  (a + g mod (b - a + 1), lcg_next g).

Definition lcg_gauss (mu sigma : R) (g : Z) : R * Z :=
  ((mu + sigma * IZR (g mod 7 - 3))%R, lcg_next g).

Definition lcg_random (g : Z) : R * Z :=
  ((IZR (g mod 100) / 100)%R, lcg_next g).

Lemma lcg_randint_range (a b g : Z) :
  a <= b -> a <= fst (lcg_randint a b g) <= b.
Proof.
  intros Hab. simpl.
  pose proof (Z.mod_pos_bound g (b - a + 1) ltac:(lia)). lia.
Qed.

#[export] Instance lcg : RandomSource := {|
  rng := Z;
  Random := fun seed => match seed with Some s => s | None => 0 end;
  randint := lcg_randint;
  gauss := lcg_gauss;
  random := lcg_random;
  randint_range := lcg_randint_range
|}.

(** [str.lower()] on ASCII text. *)
Definition lower_char (c : ascii) : ascii :=
  let n := nat_of_ascii c in
  if ((65 <=? n) && (n <=? 90))%nat then ascii_of_nat (n + 32) else c.

Fixpoint lower (s : string) : string :=
  match s with
  | EmptyString => EmptyString
  | String c r => String (lower_char c) (lower r)
  end.

(** A Python number that is an [int] or a [float]. *)
Inductive num : Type :=
| Int (z : Z)
| Float (x : R).

(** [int(x)] on a float: truncation toward zero. *)
Definition trunc (x : R) : Z :=
  if Rle_dec 0 x then Int_part x else - Int_part (- x).

Definition py_int (v : num) : Z :=
  match v with
  | Int z => z
  | Float x => trunc x
  end.

Section Model.

Context {RS : RandomSource}.

(** The attributes of a [_LatencyModel] object.  The last five exist only
    after the matching [_setup_*] method ran: [None] is an unset
    attribute. *)
Record LatencyModel : Type := mkModel {
  mode : string;
  base : Z;
  jitter : Z;
  rng_state : rng;
  ln_median : option R;
  ln_sigma : option R;
  ln_mu : option R;
  heavy_prob : option R;
  heavy_multiplier : option Z
}.

Definition with_rng (g : rng) (m : LatencyModel) : LatencyModel :=
  mkModel (mode m) (base m) (jitter m) g (ln_median m) (ln_sigma m) (ln_mu m)
          (heavy_prob m) (heavy_multiplier m).

(** [_setup_lognormal]. *)
Definition _setup_lognormal (m : LatencyModel) : LatencyModel :=
  let base' := if base m <=? 0 then 1000 else base m in
  let target_median := IZR base' in
  let target_std := Rmax (IZR (jitter m)) (IZR base' * 0.1) in
  let lmedian := ln target_median in
  let lsigma := sqrt (ln (1 + (target_std / target_median) ^ 2)) in
  let lmu := (lmedian - 0.5 * lsigma ^ 2)%R in
  mkModel (mode m) base' (jitter m) (rng_state m)
          (Some lmedian) (Some lsigma) (Some lmu)
          (heavy_prob m) (heavy_multiplier m).

(** [_setup_heavy_tail]. *)
Definition _setup_heavy_tail (m : LatencyModel) : LatencyModel :=
  mkModel (mode m) (base m) (jitter m) (rng_state m)
          (ln_median m) (ln_sigma m) (ln_mu m)
          (Some 0.05%R) (Some 10).

(** [_LatencyModel.__init__]. *)
Definition new_model (mode_arg : string) (base_ns jitter_ns : Z)
    (seed : option Z) : LatencyModel :=
  let m := mkModel (lower mode_arg) (Z.max 0 base_ns) (Z.max 0 jitter_ns)
                   (Random seed) None None None None None in
  if (mode m =? "lognormal")%string then _setup_lognormal m
  else if (mode m =? "heavy")%string then _setup_heavy_tail m
  else m.

(** [sample_ns]: the value returned and the object afterwards (only the
    generator state changes).  [None] is the [AttributeError] of reading a
    parameter that was never set. *)
Definition sample_ns (m : LatencyModel) : option (Z * LatencyModel) :=
  if (mode m =? "const")%string then Some (base m, m)
  else if (mode m =? "uniform")%string then
    if jitter m =? 0 then Some (base m, m)
    else
      let (x, g) := randint 0 (jitter m) (rng_state m) in
      Some (base m + x, with_rng g m)
  else if (mode m =? "normal")%string then
    if jitter m =? 0 then Some (base m, m)
    else
      let sigma := (IZR (jitter m) / 3)%R in
      let (value, g) := gauss (IZR (base m)) sigma (rng_state m) in
      Some (Z.max 0 (py_int (Float value)), with_rng g m)
  else if (mode m =? "lognormal")%string then
    match ln_mu m, ln_sigma m with
    | Some mu, Some sigma =>
        let (x, g) := gauss mu sigma (rng_state m) in
        let value := exp x in
        Some (Z.max 0 (py_int (Float value)), with_rng g m)
    | _, _ => None
    end
  else if (mode m =? "heavy")%string then
    match heavy_prob m, heavy_multiplier m with
    | Some prob, Some mult =>
        let (u, g1) := random (rng_state m) in
        let (value, g2) :=
          if Rlt_dec u prob then
            let base_val := base m * mult in
            let jitter_val := jitter m * mult in
            if 0 <? jitter_val then
              let (v, g) := gauss (IZR base_val) (IZR jitter_val / 3) g1 in
              (Float v, g)
            else (Int base_val, g1)
          else
            if 0 <? jitter m then
              let (v, g) := gauss (IZR (base m)) (IZR (jitter m) / 3) g1 in
              (Float v, g)
            else (Int (base m), g1) in
        Some (Z.max 0 (py_int value), with_rng g2 m)
    | _, _ => None
    end
  else Some (base m, m).

(** [n] calls of [sample_ns] in a row: the values returned and the object
    afterwards. *)
Fixpoint sample_many (n : nat) (m : LatencyModel)
    : option (list Z * LatencyModel) :=
  match n with
  | O => Some ([], m)
  | S k =>
      match sample_ns m with
      | None => None
      | Some (v, m1) =>
          match sample_many k m1 with
          | None => None
          | Some (vs, m2) => Some (v :: vs, m2)
          end
      end
  end.

(** [_EdgeScheduler]: the pending timestamps of its priority queue, earliest
    first, and the shutdown flag. *)
Record EdgeScheduler : Type := mkSched {
  pending : list Z;
  is_shutdown : bool
}.

(** [schedule_edge_at]. *)
Definition schedule_edge_at (ts_ns : Z) (s : EdgeScheduler) : EdgeScheduler :=
  if is_shutdown s then s
  else mkSched (Stats.insert_sorted ts_ns (pending s)) (is_shutdown s).

(** A [SimOutLine] together with the two objects it refers to.
    [scheduled] is a ghost log: the arguments of the [schedule_edge_at]
    calls made so far, oldest first. *)
Record SimOutLine : Type := mkOut {
  _scheduler : EdgeScheduler;
  _model : LatencyModel;
  _last_value : Z;
  scheduled : list Z
}.

(** [value = 1 if value else 0]. *)
Definition normalize (value : Z) : Z := if value =? 0 then 0 else 1.

(** [SimOutLine.set_value(value)], with the clock reading [now] that
    [now_ns()] returns if it is called. *)
Definition set_value (value now : Z) (o : SimOutLine) : option SimOutLine :=
  let value := normalize value in
  if (_last_value o =? 0) && (value =? 1) then
    match sample_ns (_model o) with
    | None => None
    | Some (delay_ns, m) =>
        let edge_time := now + delay_ns in
        Some (mkOut (schedule_edge_at edge_time (_scheduler o)) m value
                    (scheduled o ++ [edge_time]))
    end
  else Some (mkOut (_scheduler o) (_model o) value (scheduled o)).

(** A sequence of [set_value] calls, each with its clock reading. *)
Fixpoint set_values (calls : list (Z * Z)) (o : SimOutLine)
    : option SimOutLine :=
  match calls with
  | [] => Some o
  | (value, now) :: rest =>
      match set_value value now o with
      | None => None
      | Some o' => set_values rest o'
      end
  end.

(** [setup_sim_lines]: the output line with a fresh scheduler and model. *)
Definition setup_sim_lines (mode_arg : string) (base_lat_us jitter_us : Z)
    (seed : option Z) : SimOutLine :=
  let base_ns := base_lat_us * 1000 in
  let jitter_ns := jitter_us * 1000 in
  mkOut (mkSched [] false) (new_model mode_arg base_ns jitter_ns seed) 0 [].

End Model.

(** *** Notions used to state the properties *)

(** Rising edges in a sequence of normalized levels that starts after level
    [prev]: the positions holding 1 whose predecessor holds 0. *)
Fixpoint rising_edges (prev : Z) (levels : list Z) : nat :=
  match levels with
  | [] => O
  | v :: rest =>
      if (prev =? 0) && (v =? 1) then S (rising_edges v rest)
      else rising_edges v rest
  end.

(** Closed forms for the lognormal distribution with parameters [mu] and
    [sigma] (the law of [exp X] for [X] normal with mean [mu] and standard
    deviation [sigma]): its median, mean and variance. *)
Definition lognormal_median (mu sigma : R) : R := exp mu.

Definition lognormal_mean (mu sigma : R) : R := exp (mu + sigma ^ 2 / 2).

Definition lognormal_variance (mu sigma : R) : R :=
  ((exp (sigma ^ 2) - 1) * exp (2 * mu + sigma ^ 2))%R.

Definition lognormal_std (mu sigma : R) : R :=
  sqrt (lognormal_variance mu sigma).

End Sim.

(** ** [compute_percentiles] ([latency_meter.py]) *)

Module Percentiles.
Import Stats.

(** [compute_percentiles(dts_ns)]: the tuple [(p50, p95, p99, mx)]. *)
Definition compute_percentiles (dts_ns : list dt) : option (R * R * R * Z) :=
  match dts_ns with
  | [] => Some (0%R, 0%R, 0%R, 0)
  | _ :: _ =>
      match valid_dts dts_ns with
      | [] => Some (0%R, 0%R, 0%R, 0)
      | valid =>
          match np_array_int64 valid with
          | None => None
          | Some arr =>
              if (length arr =? 1)%nat then
                let val := IZR (nth 0 arr 0) in
                Some (val, val, val, nth 0 arr 0)
              else
                Some (np_percentile arr 50, np_percentile arr 95,
                      np_percentile arr 99, np_max arr)
          end
      end
  end.

End Percentiles.

(** ** Edge listener ([latency_meter.py], the thread function [listener]) *)

Module Listener.

(** The calls of the thread that leave it. *)
Inductive event : Type :=
| Put (seq ts : Z)        (* edges_q.put_nowait((current_seq, ts_edge)) *)
| PutFull (seq ts : Z)    (* the same call raised queue.Full *)
| Warn.                   (* a line printed to stderr *)

(** How [inl.event_wait(1.0)] and [inl.event_read()] end in one cycle. *)
Inductive waited : Type :=
| TimedOut                (* event_wait returned False *)
| Ready                   (* event_wait returned True, event_read returned *)
| Raised (stop_set : bool). (* one of the two raised; the stop flag then *)

(** What one cycle meets: the loop condition, the outcome of the wait, the
    clock reading taken as [ts_edge], and whether the queue is full. *)
Record cycle_env : Type := mkEnv {
  loop_running : bool;
  wait_outcome : waited;
  now_at_edge : Z;
  queue_full : bool
}.

(** The thread's state: the local [current_seq] and the calls made. *)
Record lstate : Type := mkL {
  current_seq : Z;
  log : list event
}.

Definition start : lstate := mkL 0 [].

(** One pass through the body of the [while] loop. *)
Definition cycle (st : lstate) (e : cycle_env) : lstate :=
  match wait_outcome e with
  | TimedOut => st
  | Raised stop_set =>
      if stop_set then st else mkL (current_seq st) (log st ++ [Warn])
  | Ready =>
      let ts_edge := now_at_edge e in
      if queue_full e then
        mkL (current_seq st)
            (log st ++ [PutFull (current_seq st) ts_edge; Warn])
      else
        mkL (current_seq st + 1) (log st ++ [Put (current_seq st) ts_edge])
  end.

(** The whole thread. *)
Fixpoint listener (envs : list cycle_env) (st : lstate) : lstate :=
  match envs with
  | [] => st
  | e :: rest => if loop_running e then listener rest (cycle st e) else st
  end.

(** The EdgeRecords put on the queue, in order. *)
Definition puts (l : list event) : list (Z * Z) :=
  flat_map (fun ev => match ev with Put s t => [(s, t)] | _ => [] end) l.

End Listener.

(** ** Reading simulated edges ([sim_backend.py], [_EdgeScheduler]) *)

Module SimRead.
Import Sim.

(** [@dataclass _SimEvent]. *)
Record _SimEvent : Type := mkEvent {
  sec : Z;
  nsec : Z
}.

(** The event built from a timestamp: [ts // 1_000_000_000] and
    [ts % 1_000_000_000] (Python's floor division and modulo). *)
Definition event_of (ts_ns : Z) : _SimEvent :=
  mkEvent (ts_ns / 1000000000) (ts_ns mod 1000000000).

(** [event_read]: the earliest pending timestamp leaves the queue; on an
    empty queue the event is made from the clock reading [now]. *)
Definition event_read (now : Z) (s : EdgeScheduler)
    : _SimEvent * EdgeScheduler :=
  match pending s with
  | ts_ns :: rest => (event_of ts_ns, mkSched rest (is_shutdown s))
  | [] => (event_of now, s)
  end.

(** [shutdown]. *)
Definition shutdown (s : EdgeScheduler) : EdgeScheduler :=
  mkSched (pending s) true.

(** [schedule_edge_at] for each timestamp of a list, in order. *)
Definition schedule_all (tss : list Z) (s : EdgeScheduler) : EdgeScheduler :=
  fold_left (fun acc ts => schedule_edge_at ts acc) tss s.

(** [event_read] once per clock reading of a list: the events read and
    the scheduler afterwards. *)
Fixpoint read_all (nows : list Z) (s : EdgeScheduler)
    : list _SimEvent * EdgeScheduler :=
  match nows with
  | [] => ([], s)
  | now :: rest =>
      let (ev, s1) := event_read now s in
      let (evs, s2) := read_all rest s1 in
      (ev :: evs, s2)
  end.

(** *** Notions used to state the properties *)

(** The timestamp an event stands for. *)
Definition event_ns (ev : _SimEvent) : Z := sec ev * 1000000000 + nsec ev.

(** The clock readings of the [set_value] calls that see a 0-to-1
    transition, for calls given as (value, clock reading) after level
    [prev]. *)
Fixpoint rising_nows (prev : Z) (calls : list (Z * Z)) : list Z :=
  match calls with
  | [] => []
  | (value, now) :: rest =>
      if (prev =? 0) && (normalize value =? 1)
      then now :: rising_nows (normalize value) rest
      else rising_nows (normalize value) rest
  end.

End SimRead.

(** ** CSV output ([latency_meter.py], the end of [main]) *)

Module Csv.
Import Pairing.

(** [str(n)] of an integer: its decimal numeral, with a minus sign when
    negative. *)
Definition py_str (z : Z) : string := NilZero.string_of_int (Z.to_int z).

(** The field written for [x if x is not None else ""]. *)
Definition field (x : option Z) : string :=
  match x with
  | Some z => py_str z
  | None => EmptyString
  end.

(** The rows handed to [csv.writer]: the header, then one row per sample. *)
Definition header : list string :=
  ["ts_send_ns"; "ts_edge_ns"; "dt_ns"]%string.

Definition row (s : Sample) : list string :=
  [py_str (ts_send s); field (ts_edge s); field (dt_ns s)].

Definition csv_rows (samples : list Sample) : list (list string) :=
  header :: map row samples.

(** *** Notions used to state the properties *)

(** The value a field holds when read as a decimal numeral. *)
Definition decimal_value (s : string) : option Z :=
  option_map Z.of_int (NilZero.int_of_string s).

(** The [dt_ns] column of the data rows. *)
Definition dt_column (rows : list (list string)) : list string :=
  map (fun r => nth 2 r EmptyString) (tl rows).

End Csv.

(* ================================================================== *)
(** * Part II: properties *)
(* ================================================================== *)

(** ** Statistics engine *)

Module StatsFacts.
Import Stats.


Lemma keep_valid (d : dt) : keep d = true <-> valid d.
Proof.
  destruct d as [| |z]; unfold keep; simpl; try (split; [discriminate | tauto]).
  apply Z.leb_le.
Qed.


Lemma np_array_int64_fits (l : list dt) :
  Forall fits l ->
  exists arr, np_array_int64 (valid_dts l) = Some arr
              /\ length arr = length (valid_dts l).
Proof.
  unfold valid_dts.
  induction 1 as [|d l Hd _ IH]; simpl.
  - exists []. split; reflexivity.
  - destruct IH as [arr [Harr Hlen]].
    destruct (keep d) eqn:Hk; [|exists arr; split; assumption].
    apply keep_valid in Hk. destruct d as [| |z]; simpl in Hk; try tauto.
    simpl in Hd. simpl. unfold in_int64, int64_min.
    replace (- 2 ^ 63 <=? z) with true by (symmetry; apply Z.leb_le; lia).
    replace (z <=? int64_max) with true by (symmetry; apply Z.leb_le; lia).
    simpl. rewrite Harr. exists (z :: arr). split; [reflexivity|simpl; lia].
Qed.

Lemma compute_full_stats_returns (l : list dt) :
  Forall fits l -> exists r, compute_full_stats l = Some r.
Proof.
  intros Hf. destruct (np_array_int64_fits l Hf) as [arr [Harr _]].
  unfold compute_full_stats. destruct (valid_dts l) eqn:Hv.
  - eexists; reflexivity.
  - rewrite Harr. eexists; reflexivity.
Qed.

Lemma compute_full_stats_counts (l : list dt) (r : LatencyResult) :
  compute_full_stats l = Some r ->
  total_samples r = Z.of_nat (length l)
  /\ successful_samples r = Z.of_nat (length (valid_dts l))
  /\ missed_samples r = Z.of_nat (length l) - Z.of_nat (length (valid_dts l)).
Proof.
  unfold compute_full_stats. destruct (valid_dts l) eqn:Hv.
  - intros [= <-]; simpl. repeat split; lia.
  - destruct (np_array_int64 (d :: l0)); [|discriminate].
    intros [= <-]; simpl. repeat split; lia.
Qed.






(** *** Order statistics *)



Lemma insert_sorted_length (x : Z) (s : list Z) :
  length (insert_sorted x s) = S (length s).
Proof.
  induction s as [|y s IH]; simpl; [reflexivity|].
  destruct (x <=? y); simpl; rewrite ?IH; reflexivity.
Qed.

Lemma np_sort_length (l : list Z) : length (np_sort l) = length l.
Proof.
  induction l as [|x l IH]; simpl; [reflexivity|].
  rewrite insert_sorted_length, IH. reflexivity.
Qed.






(** One hundred times the percentile, an integer. *)
Definition percentile_x100 (arr : list Z) (q : Z) : Z :=
  let s := np_sort arr in
  let n := Z.of_nat (length s) in
  let t := (n - 1) * q in
  let lo := t / 100 in
  let hi := Z.min (lo + 1) (n - 1) in
  nthZ s lo * (100 - t mod 100) + nthZ s hi * (t mod 100).

Lemma np_percentile_x100 (arr : list Z) (q : Z) :
  np_percentile arr q = (IZR (percentile_x100 arr q) / 100)%R.
Proof.
  unfold np_percentile, percentile_x100; cbv zeta.
  rewrite plus_IZR, !mult_IZR, minus_IZR. field.
Qed.













(** *** The repository's tests, replayed on the model *)

(** [test_basic_percentiles]: the median of 10, 20, ..., 100 is 55. *)
Example np_percentile_median_of_ten :
  np_percentile [10; 20; 30; 40; 50; 60; 70; 80; 90; 100] 50 = 55%R.
Proof.
  rewrite np_percentile_x100.
  replace (percentile_x100 [10; 20; 30; 40; 50; 60; 70; 80; 90; 100] 50)
    with 5500 by reflexivity.
  lra.
Qed.

(** [test_full_stats_with_misses]. *)
Example compute_full_stats_with_misses :
  exists r,
    compute_full_stats [Val 10; Val 20; Absent; Val 30; Absent; Val 40]
    = Some r
    /\ total_samples r = 6 /\ successful_samples r = 4
    /\ missed_samples r = 2 /\ mean_ns r = 25%R.
Proof.
  eexists. split; [reflexivity|]. cbn [total_samples successful_samples
                                         missed_samples mean_ns].
  do 3 (split; [reflexivity|]).
  unfold np_mean, np_sum. simpl. lra.
Qed.

(** [test_full_stats_all_misses]. *)
Example compute_full_stats_all_misses :
  compute_full_stats [Absent; Absent; Absent]
  = Some (mkResult 3 0 3 0 0 0 0 0 0 0).
Proof. reflexivity. Qed.



End StatsFacts.

(** ** Pairing engine *)

Module PairingFacts.
Import Pairing.

(** *** The dictionary operations *)

Lemma dict_get_None (k : Z) (d : dict) :
  dict_get k d = None <-> ~ In k (keys d).
Proof.
  induction d as [|[k' v] d IH]; simpl; [tauto|].
  destruct (Z.eqb_spec k k') as [->|Hne].
  - split; [discriminate|tauto].
  - rewrite IH. intuition.
Qed.

Lemma dict_get_In (k v : Z) (d : dict) :
  dict_get k d = Some v -> In (k, v) d.
Proof.
  induction d as [|[k' v'] d IH]; simpl; [discriminate|].
  destruct (Z.eqb_spec k k') as [->|Hne].
  - intros [= ->]. left; reflexivity.
  - intros H. right. apply IH, H.
Qed.

Lemma In_keys (k v : Z) (d : dict) : In (k, v) d -> In k (keys d).
Proof. intros H. apply (in_map fst) in H. exact H. Qed.

Lemma dict_set_fresh (k v : Z) (d : dict) :
  dict_get k d = None -> dict_set k v d = d ++ [(k, v)].
Proof.
  induction d as [|[k' v'] d IH]; simpl; [reflexivity|].
  destruct (k =? k'); [discriminate|].
  intros H. rewrite IH by exact H. reflexivity.
Qed.

Lemma dict_remove_incl (k : Z) (d : dict) (kv : Z * Z) :
  In kv (dict_remove k d) -> In kv d.
Proof.
  induction d as [|[k' v'] d IH]; simpl; [tauto|].
  destruct (k =? k'); simpl; intuition.
Qed.

Lemma dict_remove_other (k : Z) (d : dict) (kv : Z * Z) :
  In kv d -> fst kv <> k -> In kv (dict_remove k d).
Proof.
  induction d as [|[k' v'] d IH]; simpl; [tauto|].
  intros [<-|Hin] Hne.
  - simpl in Hne. destruct (Z.eqb_spec k k'); [congruence|left; reflexivity].
  - destruct (k =? k'); [exact Hin|right; apply IH; assumption].
Qed.

Lemma dict_remove_NoDup (k : Z) (d : dict) :
  NoDup (keys d) -> NoDup (keys (dict_remove k d)).
Proof.
  induction d as [|[k' v'] d IH]; simpl; [tauto|].
  intros Hnd. inversion Hnd as [|? ? Hk' Hd]; subst.
  destruct (k =? k'); [exact Hd|]. simpl. constructor; [|apply IH, Hd].
  intros Hin. apply Hk'. unfold keys in *. apply in_map_iff in Hin.
  destruct Hin as [kv [Hf Hin]]. apply in_map_iff. exists kv.
  split; [exact Hf|]. eapply dict_remove_incl, Hin.
Qed.

Lemma dict_remove_gone (k : Z) (d : dict) :
  NoDup (keys d) -> ~ In k (keys (dict_remove k d)).
Proof.
  induction d as [|[k' v'] d IH]; simpl; [tauto|].
  intros Hnd. inversion Hnd as [|? ? Hk' Hd]; subst.
  destruct (Z.eqb_spec k k') as [->|Hne]; [exact Hk'|].
  simpl. intros [Heq|Hin]; [congruence|]. exact (IH Hd Hin).
Qed.

Lemma dict_newer_In (thr : Z) (d : dict) (kv : Z * Z) :
  In kv (dict_newer thr d) <-> In kv d /\ thr < fst kv.
Proof.
  unfold dict_newer. rewrite filter_In, Z.ltb_lt. tauto.
Qed.

Lemma dict_newer_NoDup (thr : Z) (d : dict) :
  NoDup (keys d) -> NoDup (keys (dict_newer thr d)).
Proof.
  induction d as [|[k' v'] d IH]; simpl; [tauto|].
  intros Hnd. inversion Hnd as [|? ? Hk' Hd]; subst.
  destruct (thr <? k'); [|apply IH, Hd]. simpl. constructor; [|apply IH, Hd].
  intros Hin. apply Hk'. unfold keys in *. apply in_map_iff in Hin.
  destruct Hin as [kv [Hf Hin]]. apply in_map_iff. exists kv.
  split; [exact Hf|]. apply dict_newer_In in Hin. tauto.
Qed.

Lemma dict_newer_all (thr : Z) (d : dict) :
  (forall k, In k (keys d) -> thr < k) -> dict_newer thr d = d.
Proof.
  induction d as [|[k' v'] d IH]; simpl; [reflexivity|].
  intros H. replace (thr <? k') with true
    by (symmetry; apply Z.ltb_lt, H; left; reflexivity).
  f_equal. apply IH. intros k Hk. apply H. right; exact Hk.
Qed.

Lemma dict_set_keys (k v k0 : Z) (d : dict) :
  In k0 (keys (dict_set k v d)) -> k0 = k \/ In k0 (keys d).
Proof.
  induction d as [|[k' v'] d IH]; simpl.
  - intuition.
  - destruct (Z.eqb_spec k k') as [->|Hne]; simpl; intuition.
Qed.

(** *** The invariant of the orchestrator

    [S] and [E] are the send and edge records taken from the queues so
    far.  Samples and send buffer never share a sequence number; as long
    as no clean-up evicts a buffered send ([complete]) they also cover
    every record of [S]. *)
Section Invariant.

Variable complete : Prop.

Record inv (S E : list (Z * Z)) (st : state) : Prop := mkInv {
  inv_sb_nodup : NoDup (keys (send_buffer st));
  inv_samples_nodup : NoDup (map sample_seq (samples st));
  inv_disjoint :
    forall q, In q (map sample_seq (samples st)) ->
              ~ In q (keys (send_buffer st));
  inv_sb_from : forall kv, In kv (send_buffer st) -> In kv S;
  inv_samples_from :
    forall s, In s (samples st) ->
              In (sample_seq s, ts_send s) S
              /\ exists te, In (sample_seq s, te) E
                            /\ s = hit (sample_seq s) (ts_send s) te;
  inv_eb_from : forall q, In q (keys (edge_buffer st)) -> In q (map fst E);
  inv_complete :
    complete ->
    forall kv, In kv S ->
               In (fst kv) (map sample_seq (samples st))
               \/ In kv (send_buffer st)
}.

Lemma inv_init : inv [] [] init.
Proof. constructor; simpl; try tauto; constructor. Qed.

Lemma sb_key_from (S E : list (Z * Z)) (st : state) (q : Z) :
  inv S E st -> In q (keys (send_buffer st)) -> In q (map fst S).
Proof.
  intros Hi Hq. unfold keys in Hq. apply in_map_iff in Hq.
  destruct Hq as [kv [<- Hin]]. apply in_map, (inv_sb_from _ _ _ Hi), Hin.
Qed.

Lemma sample_seq_from (S E : list (Z * Z)) (st : state) (q : Z) :
  inv S E st -> In q (map sample_seq (samples st)) -> In q (map fst S).
Proof.
  intros Hi Hq. apply in_map_iff in Hq. destruct Hq as [s [<- Hin]].
  destruct (inv_samples_from _ _ _ Hi s Hin) as [H _].
  apply (in_map fst) in H. exact H.
Qed.

(** A send record with a fresh sequence number goes to the send buffer. *)
Lemma inv_send (S E : list (Z * Z)) (st : state) (q ts : Z) :
  inv S E st -> ~ In q (map fst S) ->
  inv (S ++ [(q, ts)]) E
      (mkState (samples st) (dict_set q ts (send_buffer st))
               (edge_buffer st)).
Proof.
  intros Hi Hq.
  assert (Hfresh : dict_get q (send_buffer st) = None).
  { apply dict_get_None. intros H. apply Hq. eapply sb_key_from; eauto. }
  rewrite (dict_set_fresh _ _ _ Hfresh).
  destruct Hi as [I1 I2 I3 I4 I5 I6 I7]. constructor; simpl.
  - unfold keys. rewrite map_app. simpl.
    apply NoDup_app; [exact I1|repeat constructor; simpl; tauto|].
    intros x Hx [<-|[]]. apply dict_get_None in Hfresh. exact (Hfresh Hx).
  - exact I2.
  - intros x Hx. unfold keys. rewrite map_app, in_app_iff. simpl.
    intros [H|[<-|[]]]; [exact (I3 x Hx H)|].
    apply Hq. apply in_map_iff in Hx. destruct Hx as [s [<- Hin]].
    destruct (I5 s Hin) as [H _]. apply (in_map fst) in H. exact H.
  - intros kv. rewrite !in_app_iff. simpl. intuition.
  - intros s Hs. destruct (I5 s Hs) as [H1 H2]. split; [|exact H2].
    apply in_app_iff. left; exact H1.
  - exact I6.
  - intros HP kv. rewrite !in_app_iff. simpl.
    intros [H|[<-|[]]]; [|right; right; left; reflexivity].
    destruct (I7 HP kv H); [left|right; left]; assumption.
Qed.

(** An edge record with a fresh sequence number whose send is buffered
    produces the hit sample. *)
Lemma inv_edge_match (S E : list (Z * Z)) (st : state) (q ts te : Z) :
  inv S E st -> dict_get q (send_buffer st) = Some ts ->
  inv S (E ++ [(q, te)])
      (mkState (samples st ++ [hit q ts te])
               (dict_remove q (send_buffer st)) (edge_buffer st)).
Proof.
  intros Hi Hget. pose proof (dict_get_In _ _ _ Hget) as Hin.
  destruct Hi as [I1 I2 I3 I4 I5 I6 I7]. constructor; simpl.
  - apply dict_remove_NoDup, I1.
  - rewrite map_app. simpl.
    apply NoDup_app; [exact I2|repeat constructor; simpl; tauto|].
    intros x Hx [<-|[]]. apply (I3 _ Hx). eapply In_keys, Hin.
  - intros x. rewrite map_app, in_app_iff. simpl.
    intros [Hx|[<-|[]]] Hk.
    + apply (I3 x Hx). unfold keys in *. apply in_map_iff in Hk.
      destruct Hk as [kv [Hf Hk]]. apply in_map_iff. exists kv.
      split; [exact Hf|]. eapply dict_remove_incl, Hk.
    + exact (dict_remove_gone _ _ I1 Hk).
  - intros kv Hkv. apply I4. eapply dict_remove_incl, Hkv.
  - intros s. rewrite in_app_iff. simpl. intros [Hs|[<-|[]]].
    + destruct (I5 s Hs) as [H1 [te' [H2 H3]]]. split; [exact H1|].
      exists te'. split; [apply in_app_iff; left; exact H2|exact H3].
    + simpl. split; [apply I4, Hin|]. exists te.
      split; [apply in_app_iff; right; left; reflexivity|reflexivity].
  - intros x Hx. rewrite map_app, in_app_iff. left. apply I6, Hx.
  - intros HP kv Hkv. rewrite map_app, in_app_iff. simpl.
    destruct (I7 HP kv Hkv) as [H|H]; [left; left; exact H|].
    destruct (Z.eq_dec (fst kv) q) as [He|Hne].
    + left; right; left. symmetry; exact He.
    + right. apply dict_remove_other; assumption.
Qed.

(** More edge records seen, same state. *)
Lemma inv_more_edges (S E E' : list (Z * Z)) (st : state) :
  inv S E st -> inv S (E ++ E') st.
Proof.
  intros [I1 I2 I3 I4 I5 I6 I7]. constructor; try assumption.
  - intros s Hs. destruct (I5 s Hs) as [H1 [te [H2 H3]]]. split; [exact H1|].
    exists te. split; [apply in_app_iff; left; exact H2|exact H3].
  - intros x Hx. rewrite map_app, in_app_iff. left. apply I6, Hx.
Qed.

(** An edge record whose send is not buffered waits in the edge buffer. *)
Lemma inv_edge_wait (S E : list (Z * Z)) (st : state) (q te : Z) :
  inv S E st ->
  inv S (E ++ [(q, te)])
      (mkState (samples st) (send_buffer st)
               (dict_set q te (edge_buffer st))).
Proof.
  intros Hi. destruct (inv_more_edges S E [(q, te)] st Hi)
    as [I1 I2 I3 I4 I5 I6 I7].
  constructor; simpl; try assumption.
  intros x Hx. apply dict_set_keys in Hx. destruct Hx as [->|Hx].
  - rewrite map_app, in_app_iff. right; left; reflexivity.
  - apply I6, Hx.
Qed.

Lemma dict_newer_keys (thr : Z) (d : dict) (k : Z) :
  In k (keys (dict_newer thr d)) -> In k (keys d).
Proof.
  unfold keys. intros Hk. apply in_map_iff in Hk.
  destruct Hk as [kv [Hf Hk]]. apply in_map_iff. exists kv.
  split; [exact Hf|]. apply dict_newer_In in Hk. tauto.
Qed.

(** A clean-up; it keeps the cover when every buffered send is inside the
    window. *)
Lemma inv_cleanup (S E : list (Z * Z)) (st : state) (c : Z) :
  inv S E st ->
  (complete -> forall q, In q (map fst S) -> c - 10000 < q) ->
  inv S E (cleanup st c).
Proof.
  intros Hi Hw. unfold cleanup.
  destruct (Z.of_nat (length (samples st)) mod 1000 =? 0); [|exact Hi].
  pose proof (sb_key_from S E st) as Hkeys.
  destruct Hi as [I1 I2 I3 I4 I5 I6 I7]. constructor; simpl.
  - apply dict_newer_NoDup, I1.
  - exact I2.
  - intros q Hq Hk. apply (I3 q Hq). eapply dict_newer_keys, Hk.
  - intros kv Hkv. apply I4. apply dict_newer_In in Hkv. tauto.
  - exact I5.
  - intros q Hq. apply I6. eapply dict_newer_keys, Hq.
  - intros HP kv Hkv.
    rewrite (dict_newer_all (c - 10000) (send_buffer st)).
    + apply (I7 HP kv Hkv).
    + intros k Hk. apply (Hw HP). apply Hkeys; [|exact Hk].
      constructor; assumption.
Qed.

(** *** The loops *)

Lemma somes_app {A : Type} (l1 l2 : list (option A)) :
  somes (l1 ++ l2) = somes l1 ++ somes l2.
Proof. unfold somes. apply flat_map_app. Qed.

Lemma process_send_inv (S E : list (Z * Z)) (st : state) (rec : Z * Z) :
  inv S E st -> ~ In (fst rec) (map fst S) -> ~ In (fst rec) (map fst E) ->
  inv (S ++ [rec]) E (process_send st rec).
Proof.
  intros Hi HS HE. destruct rec as [q ts]. simpl in *. unfold process_send.
  assert (Hnone : dict_get q (edge_buffer st) = None).
  { apply dict_get_None. intros H. apply HE, (inv_eb_from _ _ _ Hi), H. }
  rewrite Hnone. apply inv_send; assumption.
Qed.

Lemma process_edge_inv (S E : list (Z * Z)) (st : state) (rec : Z * Z) :
  inv S E st -> inv S (E ++ [rec]) (process_edge st rec).
Proof.
  intros Hi. destruct rec as [q te]. unfold process_edge.
  destruct (dict_get q (send_buffer st)) as [ts|] eqn:Hget.
  - apply inv_edge_match; assumption.
  - apply inv_edge_wait; assumption.
Qed.

Lemma main_step_inv (S E : list (Z * Z)) (st : state) (it : main_iter) :
  inv S E st ->
  NoDup (map fst (S ++ somes [got_send it])) ->
  (forall rec, got_send it = Some rec -> ~ In (fst rec) (map fst E)) ->
  (complete ->
   forall q, In q (map fst (S ++ somes [got_send it])) ->
             seq_counter it - 10000 < q) ->
  inv (S ++ somes [got_send it]) (E ++ somes [got_edge it]) (main_step st it).
Proof.
  intros Hi Hnd Hord Hw. unfold main_step.
  apply inv_cleanup; [|exact Hw].
  assert (H1 : inv (S ++ somes [got_send it]) E
                   (on_some process_send st (got_send it))).
  { destruct (got_send it) as [rec|]; simpl in *.
    - apply process_send_inv; [exact Hi| |apply Hord; reflexivity].
      rewrite map_app in Hnd. simpl in Hnd.
      apply NoDup_remove_2 in Hnd. rewrite app_nil_r in Hnd. exact Hnd.
    - rewrite app_nil_r. exact Hi. }
  destruct (got_edge it) as [rec|].
  - apply (process_edge_inv _ E _ rec), H1.
  - change (somes [@None (Z * Z)]) with (@nil (Z * Z)).
    rewrite app_nil_r. exact H1.
Qed.

Lemma sends_first_from_app (seen : list Z) (l1 l2 : list main_iter) :
  sends_first_from seen (l1 ++ l2)
  = sends_first_from seen l1
    && sends_first_from (seen ++ map fst (somes (map got_edge l1))) l2.
Proof.
  revert seen. induction l1 as [|it l1 IH]; intros seen.
  - simpl. rewrite app_nil_r. reflexivity.
  - change ((it :: l1) ++ l2) with (it :: (l1 ++ l2)).
    cbn [sends_first_from]. rewrite IH, andb_assoc. do 2 f_equal.
    rewrite <- app_assoc, <- map_app, <- somes_app. reflexivity.
Qed.

Lemma within_window_spec (main : list main_iter) :
  within_window main = true ->
  forall it q, In it main -> In q (map fst (somes (map got_send main))) ->
               seq_counter it - 10000 < q.
Proof.
  unfold within_window. intros H it q Hit Hq.
  rewrite forallb_forall in H. specialize (H it Hit).
  rewrite forallb_forall in H. apply Z.ltb_lt, H, Hq.
Qed.

Lemma main_loop_inv (main : list main_iter) :
  NoDup (map fst (somes (map got_send main))) ->
  sends_first main = true ->
  (complete ->
   forall it q, In it main -> In q (map fst (somes (map got_send main))) ->
                seq_counter it - 10000 < q) ->
  inv (somes (map got_send main)) (somes (map got_edge main))
      (main_loop main init).
Proof.
  unfold sends_first, main_loop.
  induction main as [|it main IH] using rev_ind; intros Hnd Hord Hw.
  - exact inv_init.
  - rewrite fold_left_app. simpl.
    rewrite !map_app, !somes_app in *. simpl map in *.
    rewrite sends_first_from_app in Hord. apply andb_true_iff in Hord.
    destruct Hord as [Hord1 Hord2]. simpl in Hord2.
    rewrite andb_true_r in Hord2.
    apply main_step_inv.
    + apply IH; [|exact Hord1|].
      * rewrite map_app in Hnd. eapply NoDup_app_remove_r, Hnd.
      * intros HP it' q Hit Hq.
        apply (Hw HP); [apply in_app_iff; left; exact Hit|].
        rewrite map_app, in_app_iff. left; exact Hq.
    + exact Hnd.
    + intros rec Hrec Hin. rewrite Hrec in Hord2.
      apply negb_true_iff in Hord2.
      assert (Hex : existsb (Z.eqb (fst rec))
                      (map fst (somes (map got_edge main))) = true).
      { apply existsb_exists. exists (fst rec). split; [exact Hin|].
        apply Z.eqb_refl. }
      congruence.
    + intros HP q Hq.
      apply (Hw HP); [apply in_app_iff; right; left; reflexivity|].
      exact Hq.
Qed.

Lemma drain_step_inv (S E : list (Z * Z)) (st : state) (it : drain_iter) :
  inv S E st ->
  NoDup (map fst (S ++ somes [drained_send it])) ->
  inv (S ++ somes [drained_send it]) (E ++ somes [drained_edge it])
      (drain_step st it).
Proof.
  intros Hi Hnd. unfold drain_step.
  assert (H1 : inv (S ++ somes [drained_send it]) E
                   (on_some drain_send st (drained_send it))).
  { destruct (drained_send it) as [[q ts]|]; simpl in *.
    - apply inv_send; [exact Hi|].
      rewrite map_app in Hnd. simpl in Hnd.
      apply NoDup_remove_2 in Hnd. rewrite app_nil_r in Hnd. exact Hnd.
    - rewrite app_nil_r. exact Hi. }
  destruct (drained_edge it) as [[q te]|].
  - change (somes [Some (q, te)]) with [(q, te)].
    unfold on_some at 1, drain_edge.
    destruct (dict_get q (send_buffer _)) as [ts|] eqn:Hget.
    + apply inv_edge_match; assumption.
    + apply inv_more_edges, H1.
  - change (somes [@None (Z * Z)]) with (@nil (Z * Z)).
    rewrite app_nil_r. exact H1.
Qed.

Lemma drain_fold_inv (its : list drain_iter) :
  forall S E st,
    inv S E st ->
    NoDup (map fst (S ++ somes (map drained_send its))) ->
    inv (S ++ somes (map drained_send its))
        (E ++ somes (map drained_edge its))
        (fold_left drain_step its st).
Proof.
  induction its as [|it its IH]; intros S E st Hi Hnd.
  - simpl. rewrite !app_nil_r. exact Hi.
  - cbn [map fold_left] in *.
    assert (HS : somes (drained_send it :: map drained_send its)
                 = somes [drained_send it] ++ somes (map drained_send its))
      by apply (somes_app [drained_send it]).
    assert (HE : somes (drained_edge it :: map drained_edge its)
                 = somes [drained_edge it] ++ somes (map drained_edge its))
      by apply (somes_app [drained_edge it]).
    rewrite HS in Hnd |- *. rewrite HE. rewrite !app_assoc.
    rewrite app_assoc in Hnd.
    apply IH; [|exact Hnd].
    apply drain_step_inv; [exact Hi|].
    rewrite map_app in Hnd. eapply NoDup_app_remove_r, Hnd.
Qed.

Lemma drain_loop_run (its : list drain_iter) (st : state) :
  drain_loop its st = fold_left drain_step (drain_run its) st.
Proof.
  revert st. induction its as [|it its IH]; intros st; simpl; [reflexivity|].
  destruct (processed_any it); simpl; [apply IH|reflexivity].
Qed.

Lemma count_seq_once (q : Z) (ss : list Sample) :
  NoDup (map sample_seq ss) -> In q (map sample_seq ss) ->
  count_seq q ss = 1%nat.
Proof.
  unfold count_seq. induction ss as [|s ss IH]; simpl; [tauto|].
  intros Hnd Hin. inversion Hnd as [|? ? Hs Hss]; subst.
  destruct (Z.eqb_spec (sample_seq s) q) as [He|Hne].
  - simpl. f_equal. rewrite <- He in *.
    clear IH Hin Hnd Hss. induction ss as [|s' ss IH]; simpl; [reflexivity|].
    simpl in Hs. destruct (Z.eqb_spec (sample_seq s') (sample_seq s)).
    + exfalso. apply Hs. left; assumption.
    + apply IH. intros H. apply Hs. right; exact H.
  - apply IH; [exact Hss|]. destruct Hin as [H|H]; [congruence|exact H].
Qed.

Lemma pairing_inv (main : list main_iter) (drain : list drain_iter) :
  NoDup (map fst (sends_of main drain)) ->
  sends_first main = true ->
  (complete -> within_window main = true) ->
  inv (sends_of main drain) (edges_of main drain)
      (drain_loop drain (main_loop main init)).
Proof.
  intros Hnd Hord Hw. unfold sends_of, edges_of in *.
  rewrite drain_loop_run. apply drain_fold_inv; [|exact Hnd].
  apply main_loop_inv; [|exact Hord|].
  - rewrite map_app in Hnd. eapply NoDup_app_remove_r, Hnd.
  - intros HP it q. apply within_window_spec, Hw, HP.
Qed.

End Invariant.



Lemma count_seq_le_one (q : Z) (ss : list Sample) :
  NoDup (map sample_seq ss) -> (count_seq q ss <= 1)%nat.
Proof.
  intros Hnd. destruct (in_dec Z.eq_dec q (map sample_seq ss)) as [Hin|Hout].
  - rewrite (count_seq_once q ss Hnd Hin). lia.
  - unfold count_seq. induction ss as [|s ss IH]; simpl; [lia|].
    destruct (Z.eqb_spec (sample_seq s) q) as [He|Hne].
    + exfalso. apply Hout. left; exact He.
    + inversion Hnd; subst. apply IH; [assumption|].
      intros H. apply Hout. right; exact H.
Qed.

(** X8. Whatever the clean-up evicts: when the send records carry pairwise
    distinct sequence numbers and none is taken from its queue later than
    the edge record with its number, no sequence number appears in two
    samples, and every sample is the miss of a send record or the hit of a
    send record and an edge record with the same number. *)
Theorem pairing_at_most_once (main : list main_iter)
    (drain : list drain_iter) :
  NoDup (map fst (sends_of main drain)) ->
  sends_first main = true ->
  NoDup (map sample_seq (pairing main drain))
  /\ (forall q, (count_seq q (pairing main drain) <= 1)%nat)
  /\ (forall s, In s (pairing main drain) ->
        In (sample_seq s, ts_send s) (sends_of main drain)
        /\ (s = miss (sample_seq s) (ts_send s)
            \/ exists te, In (sample_seq s, te) (edges_of main drain)
                          /\ s = hit (sample_seq s) (ts_send s) te)).
Proof.
  intros Hnd Hord.
  destruct (pairing_inv False main drain Hnd Hord
              (fun f => match f with end)) as [I1 I2 I3 I4 I5 I6 _].
  unfold pairing, add_misses.
  set (st := drain_loop drain (main_loop main init)) in *.
  assert (Hnodup : NoDup (map sample_seq
                            (samples st
                             ++ map (fun kv => miss (fst kv) (snd kv))
                                    (send_buffer st)))).
  { rewrite map_app, map_map.
    apply NoDup_app; [exact I2|exact I1|]. intros q Hq. apply I3, Hq. }
  split; [exact Hnodup|]. split.
  - intros q. apply count_seq_le_one, Hnodup.
  - intros s Hs. apply in_app_iff in Hs. destruct Hs as [Hs|Hs].
    + destruct (I5 s Hs) as [H1 H2]. split; [exact H1|right; exact H2].
    + apply in_map_iff in Hs. destruct Hs as [[k v] [<- Hkv]]. simpl.
      split; [apply I4, Hkv|left; reflexivity].
Qed.

Lemma pairing_at_most_once_witness :
  NoDup (map sample_seq
           (pairing [mkMain (Some (0, 100)) None 20000;
                     mkMain (Some (1, 200)) (Some (1, 250)) 20000] [])).
Proof.
  apply (pairing_at_most_once
           [mkMain (Some (0, 100)) None 20000;
            mkMain (Some (1, 200)) (Some (1, 250)) 20000] []).
  - simpl. repeat constructor; simpl; intuition discriminate.
  - reflexivity.
Defined.

(** *** A run without edges *)









End PairingFacts.
(** ** Pulse generator *)

Module TogglerFacts.
Import Toggler.

(** Every call commanding the line high comes right after a put. *)
Definition paired (l : list event) : Prop :=
  forall i ev, nth_error l i = Some ev -> is_high ev ->
  exists j seq ts, i = S j /\ nth_error l j = Some (Put seq ts).

(** Every put is followed at once by a call commanding the line high. *)
Definition answered (l : list event) : Prop :=
  forall j seq ts, nth_error l j = Some (Put seq ts) ->
  exists ev, nth_error l (S j) = Some ev /\ is_high ev.

(** The events of one cycle that took sequence number [seq]. *)
Inductive block (seq : Z) : list event -> Prop :=
| block_full ts : block seq [PutFull seq ts; Warn]
| block_high_failed ts : block seq [Put seq ts; SetValueFailed 1; Warn]
| block_low_failed ts :
    block seq [Put seq ts; SetValue 1; SetValueFailed 0; Warn]
| block_pulse ts : block seq [Put seq ts; SetValue 1; SetValue 0].

Lemma paired_app (l1 l2 : list event) :
  paired l1 -> paired l2 -> paired (l1 ++ l2).
Proof.
  intros H1 H2 i ev Hi Hev.
  destruct (Nat.lt_ge_cases i (length l1)) as [Hlt|Hge].
  - rewrite nth_error_app1 in Hi by exact Hlt.
    destruct (H1 i ev Hi Hev) as (j & s & t & -> & Hj).
    exists j, s, t. split; [reflexivity|].
    rewrite nth_error_app1 by lia. exact Hj.
  - rewrite nth_error_app2 in Hi by exact Hge.
    destruct (H2 _ ev Hi Hev) as (j & s & t & Hij & Hj).
    exists (length l1 + j)%nat, s, t. split; [lia|].
    rewrite nth_error_app2 by lia.
    replace (length l1 + j - length l1)%nat with j by lia. exact Hj.
Qed.

Lemma answered_app (l1 l2 : list event) :
  answered l1 -> answered l2 -> answered (l1 ++ l2).
Proof.
  intros H1 H2 j s t Hj.
  destruct (Nat.lt_ge_cases j (length l1)) as [Hlt|Hge].
  - rewrite nth_error_app1 in Hj by exact Hlt.
    destruct (H1 j s t Hj) as (ev & Hev & Hh). exists ev. split; [|exact Hh].
    rewrite nth_error_app1; [exact Hev|].
    apply nth_error_Some. congruence.
  - rewrite nth_error_app2 in Hj by exact Hge.
    destruct (H2 _ s t Hj) as (ev & Hev & Hh). exists ev. split; [|exact Hh].
    rewrite nth_error_app2 by lia.
    replace (S j - length l1)%nat with (S (j - length l1)) by lia. exact Hev.
Qed.

Lemma block_paired (seq : Z) (b : list event) : block seq b -> paired b.
Proof.
  intros Hb i ev Hi [->| ->]; destruct Hb;
    repeat (destruct i as [|i]; simpl in Hi; try discriminate);
    do 3 eexists; split; reflexivity.
Qed.

Lemma block_answered (seq : Z) (b : list event) : block seq b -> answered b.
Proof.
  intros Hb j s t Hj; destruct Hb;
    repeat (destruct j as [|j]; simpl in Hj; try discriminate);
    eexists; (split; [reflexivity|]); unfold is_high; auto.
Qed.

Lemma block_puts (seq : Z) (b : list event) :
  block seq b -> puts b = [] \/ exists ts, puts b = [(seq, ts)].
Proof. intros []; simpl; eauto. Qed.

(** One pass of the loop body adds nothing, or one block that carries the
    old value of the counter. *)
Lemma cycle_log (st : tstate) (e : cycle_env) :
  (fst (cycle st e) = st)
  \/ exists b, block (seq_counter st) b
               /\ log (fst (cycle st e)) = log st ++ b
               /\ seq_counter (fst (cycle st e)) = seq_counter st + 1.
Proof.
  unfold cycle. destruct (stop_after_wait e); [left; reflexivity|right].
  destruct (queue_full e); [|destruct (high_raises e);
                              [|destruct (low_raises e)]];
    simpl; rewrite <- ?app_assoc; simpl;
    eexists; (split; [|split; reflexivity]); constructor.
Qed.

(** The invariant of the thread. *)
Definition calls_ok (st : tstate) : Prop :=
  paired (log st) /\ answered (log st)
  /\ NoDup (map fst (puts (log st)))
  /\ forall s, In s (map fst (puts (log st))) -> s < seq_counter st.

Lemma puts_app (l1 l2 : list event) : puts (l1 ++ l2) = puts l1 ++ puts l2.
Proof. unfold puts. apply flat_map_app. Qed.

Lemma cycle_calls_ok (st : tstate) (e : cycle_env) :
  calls_ok st -> calls_ok (fst (cycle st e)).
Proof.
  intros Hok. destruct (cycle_log st e) as [->|(b & Hb & Hlog & Hseq)];
    [exact Hok|].
  destruct Hok as (Hp & Ha & Hnd & Hlt). unfold calls_ok.
  rewrite Hlog, Hseq, puts_app, map_app.
  split; [apply paired_app; [exact Hp|eapply block_paired, Hb]|].
  split; [apply answered_app; [exact Ha|eapply block_answered, Hb]|].
  destruct (block_puts _ _ Hb) as [->|[ts ->]]; simpl.
  - rewrite app_nil_r. split; [exact Hnd|]. intros s Hs. specialize (Hlt s Hs). lia.
  - split.
    + apply NoDup_app; [exact Hnd|repeat constructor; simpl; tauto|].
      intros s Hs [<-|[]]. specialize (Hlt _ Hs). lia.
    + intros s Hs. apply in_app_iff in Hs. destruct Hs as [Hs|[<-|[]]];
        [specialize (Hlt s Hs)|]; lia.
Qed.

Lemma toggler_calls_ok (envs : list cycle_env) :
  forall st, calls_ok st -> calls_ok (toggler envs st).
Proof.
  induction envs as [|e envs IH]; intros st Hok; simpl; [exact Hok|].
  destruct (loop_running e); [|exact Hok].
  pose proof (cycle_calls_ok st e Hok) as Hc.
  destruct (cycle st e) as [st' []]; simpl in Hc; [apply IH|]; exact Hc.
Qed.

Lemma start_calls_ok : calls_ok start.
Proof.
  repeat split; simpl; try constructor; try tauto.
  - intros i ev Hi. destruct i; discriminate.
  - intros j s t Hj. destruct j; discriminate.
Qed.

(** C3, as amended.  In every run of the pulse generator each call
    commanding the output line high comes immediately after the put of a
    SendRecord, each SendRecord put is followed immediately by such a
    call, and the SendRecords carry pairwise distinct sequence numbers:
    the record is created and enqueued just before the line is commanded
    high, one record per pulse. *)
Theorem toggler_record_then_high (envs : list cycle_env) :
  (forall i ev,
      nth_error (log (toggler envs start)) i = Some ev -> is_high ev ->
      exists j seq ts,
        i = S j /\ nth_error (log (toggler envs start)) j = Some (Put seq ts))
  /\ (forall j seq ts,
        nth_error (log (toggler envs start)) j = Some (Put seq ts) ->
        exists ev,
          nth_error (log (toggler envs start)) (S j) = Some ev /\ is_high ev)
  /\ NoDup (map fst (puts (log (toggler envs start)))).
Proof.
  destruct (toggler_calls_ok envs start start_calls_ok) as (Hp & Ha & Hnd & _).
  split; [exact Hp|]. split; [exact Ha|exact Hnd].
Qed.

(** C3, as stated, fails on the plainest cycle (queue not full, no error):
    the SendRecord is put first and the line is commanded high after it,
    not before. *)
Lemma toggler_high_not_before_put :
  log (toggler [mkEnv true false 100 false false false] start)
  = [Put 0 100; SetValue 1; SetValue 0]
  /\ occurs_before (Put 0 100) (SetValue 1)
       (log (toggler [mkEnv true false 100 false false false] start))
  /\ ~ occurs_before (SetValue 1) (Put 0 100)
       (log (toggler [mkEnv true false 100 false false false] start)).
Proof.
  split; [reflexivity|]. split.
  - exists 0%nat, 1%nat. repeat split. lia.
  - intros (i & j & Hlt & Hi & Hj). simpl in Hi, Hj.
    repeat (destruct j as [|j]; simpl in Hj; try discriminate).
    lia.
Qed.

End TogglerFacts.

(** ** Exit status *)

Module ReportFacts.
Import Pairing Report.

Lemma dts_of_all_missed (samples : list Sample) :
  (forall s, In s samples -> dt_ns s = None) -> dts_of samples = [].
Proof.
  unfold dts_of. induction samples as [|s samples IH]; intros H; simpl.
  - reflexivity.
  - rewrite (H s (or_introl eq_refl)). simpl.
    apply IH. intros s' Hs'. apply H. right; exact Hs'.
Qed.

Lemma dts_of_In (samples : list Sample) (s : Sample) (d : Z) :
  In s samples -> dt_ns s = Some d -> In (Stats.Val d) (dts_of samples).
Proof.
  intros Hs Hd. unfold dts_of. apply in_flat_map. exists s.
  split; [exact Hs|]. rewrite Hd. left; reflexivity.
Qed.

Lemma dts_of_fits (samples : list Sample) :
  (forall s d, In s samples -> dt_ns s = Some d -> d <= Stats.int64_max) ->
  Forall Stats.fits (dts_of samples).
Proof.
  intros H. apply Forall_forall. intros x Hx. unfold dts_of in Hx.
  apply in_flat_map in Hx. destruct Hx as [s [Hs Hx]].
  destruct (dt_ns s) as [d|] eqn:Hd; simpl in Hx; [|tauto].
  destruct Hx as [<-|[]]. simpl. eapply H; eauto.
Qed.

(** C6. The exit status is 2 when no sample was collected, 1 when samples
    were collected and all of them are misses, and 0 when some sample is a
    hit with a non-negative delta (the deltas being nanosecond counts that
    fit [np.int64]); the three statuses are pairwise distinct. *)
Theorem main_exit_contract :
  main_exit [] = Exit 2
  /\ (forall samples,
        samples <> [] -> (forall s, In s samples -> dt_ns s = None) ->
        main_exit samples = Exit 1)
  /\ (forall samples,
        (exists s d, In s samples /\ dt_ns s = Some d /\ 0 <= d) ->
        (forall s d, In s samples -> dt_ns s = Some d ->
                     d <= Stats.int64_max) ->
        main_exit samples = Exit 0)
  /\ (Exit 0 <> Exit 2 /\ Exit 0 <> Exit 1 /\ Exit 1 <> Exit 2).
Proof.
  split; [reflexivity|]. split; [|split].
  - intros samples Hne Hall. unfold main_exit.
    destruct samples as [|s0 rest]; [congruence|].
    rewrite (dts_of_all_missed _ Hall). reflexivity.
  - intros samples (s & d & Hs & Hd & Hpos) Hfit. unfold main_exit.
    destruct samples as [|s0 rest]; [destruct Hs|].
    destruct (StatsFacts.compute_full_stats_returns _ (dts_of_fits _ Hfit))
      as [r Hr].
    rewrite Hr.
    destruct (StatsFacts.compute_full_stats_counts _ _ Hr) as (_ & Hsucc & _).
    assert (Hin : In (Stats.Val d) (Stats.valid_dts (dts_of (s0 :: rest)))).
    { unfold Stats.valid_dts. apply filter_In.
      split; [eapply dts_of_In; eauto|].
      apply StatsFacts.keep_valid. exact Hpos. }
    destruct (Stats.valid_dts (dts_of (s0 :: rest))) as [|x l];
      [destruct Hin|].
    simpl length in Hsucc.
    replace (0 <? Stats.successful_samples r) with true
      by (symmetry; apply Z.ltb_lt; lia).
    reflexivity.
  - repeat split; discriminate.
Qed.

Lemma main_exit_contract_witness :
  main_exit [] = Exit 2
  /\ main_exit [miss 0 100; miss 1 200] = Exit 1
  /\ main_exit [hit 0 100 150; miss 1 200] = Exit 0.
Proof.
  destruct main_exit_contract as (H2 & H1 & H0 & _).
  split; [exact H2|]. split.
  - apply H1; [discriminate|].
    intros s [<-|[<-|[]]]; reflexivity.
  - apply H0.
    + exists (hit 0 100 150), 50. split; [left; reflexivity|].
      split; [reflexivity|lia].
    + intros s d [<-|[<-|[]]]; simpl; intros [= <-].
      unfold Stats.int64_max. lia.
Defined.

End ReportFacts.

(** ** Simulator *)

Module SimFacts.
Import Sim.

(** [trunc] rounds toward zero. *)
Lemma trunc_toward_zero (x : R) :
  ((0 <= x -> IZR (trunc x) <= x < IZR (trunc x) + 1)
   /\ (x < 0 -> IZR (trunc x) - 1 < x <= IZR (trunc x)))%R.
Proof.
  unfold trunc. destruct (Rle_dec 0 x) as [Hx|Hx].
  - split; [intros _|intros H; lra].
    destruct (base_Int_part x) as [H1 H2]. lra.
  - split; [intros H; lra|intros _].
    destruct (base_Int_part (- x)) as [H1 H2]. rewrite opp_IZR. lra.
Qed.

Section Generic.

Context {RS : RandomSource}.

(** What [__init__] establishes and [sample_ns] keeps: the parameters a
    mode reads are set, and [base] and [jitter] are not negative. *)
Record model_ok (m : LatencyModel) : Prop := mkOk {
  ok_base : 0 <= base m;
  ok_jitter : 0 <= jitter m;
  ok_lognormal :
    mode m = "lognormal"%string ->
    exists mu sigma, ln_mu m = Some mu /\ ln_sigma m = Some sigma;
  ok_heavy :
    mode m = "heavy"%string ->
    exists prob mult, heavy_prob m = Some prob /\ heavy_multiplier m = Some mult
}.

Lemma new_model_ok (mode_arg : string) (base_ns jitter_ns : Z)
    (seed : option Z) :
  model_ok (new_model mode_arg base_ns jitter_ns seed).
Proof.
  unfold new_model. cbn [mode].
  destruct (String.eqb_spec (lower mode_arg) "lognormal") as [Hl|Hl].
  - constructor; cbn.
    + destruct (Z.max 0 base_ns <=? 0); lia.
    + lia.
    + intros _. eauto.
    + rewrite Hl. discriminate.
  - destruct (String.eqb_spec (lower mode_arg) "heavy") as [Hh|Hh].
    + constructor; cbn; try lia; [congruence|intros _; eauto].
    + constructor; cbn; try lia; congruence.
Qed.

Lemma with_rng_ok (g : rng) (m : LatencyModel) :
  model_ok m -> model_ok (with_rng g m).
Proof. intros [H1 H2 H3 H4]. constructor; assumption. Qed.

Lemma sample_ns_ok (m : LatencyModel) :
  model_ok m ->
  exists v g, sample_ns m = Some (v, with_rng g m) /\ 0 <= v.
Proof.
  intros [Hb Hj Hl Hh]. unfold sample_ns.
  assert (Hsame : with_rng (rng_state m) m = m) by (destruct m; reflexivity).
  destruct (String.eqb_spec (mode m) "const");
    [exists (base m), (rng_state m); rewrite Hsame; auto|].
  destruct (String.eqb_spec (mode m) "uniform").
  { destruct (jitter m =? 0);
      [exists (base m), (rng_state m); rewrite Hsame; auto|].
    pose proof (randint_range 0 (jitter m) (rng_state m) Hj) as Hr.
    destruct (randint 0 (jitter m) (rng_state m)) as [x g]. simpl in Hr.
    exists (base m + x), g. split; [reflexivity|lia]. }
  destruct (String.eqb_spec (mode m) "normal").
  { destruct (jitter m =? 0);
      [exists (base m), (rng_state m); rewrite Hsame; auto|].
    destruct (gauss _ _ _) as [value g].
    eexists _, g. split; [reflexivity|lia]. }
  destruct (String.eqb_spec (mode m) "lognormal") as [Hm|].
  { destruct (Hl Hm) as (mu & sigma & -> & ->).
    destruct (gauss _ _ _) as [x g].
    eexists _, g. split; [reflexivity|lia]. }
  destruct (String.eqb_spec (mode m) "heavy") as [Hm|].
  { destruct (Hh Hm) as (prob & mult & -> & ->).
    destruct (random _) as [u g1].
    destruct (Rlt_dec u prob).
    - destruct (0 <? jitter m * mult).
      + destruct (gauss _ _ _) as [v g].
        eexists _, g. split; [reflexivity|lia].
      + eexists _, g1. split; [reflexivity|lia].
    - destruct (0 <? jitter m).
      + destruct (gauss _ _ _) as [v g].
        eexists _, g. split; [reflexivity|lia].
      + eexists _, g1. split; [reflexivity|lia]. }
  exists (base m), (rng_state m). rewrite Hsame. auto.
Qed.

Lemma sample_many_ok (n : nat) :
  forall m, model_ok m ->
  exists vs m', sample_many n m = Some (vs, m')
                /\ length vs = n /\ Forall (fun v => 0 <= v) vs.
Proof.
  induction n as [|n IH]; intros m Hok; simpl.
  - exists [], m. repeat split. constructor.
  - destruct (sample_ns_ok m Hok) as (v & g & -> & Hv).
    destruct (IH _ (with_rng_ok g m Hok)) as (vs & m' & -> & Hlen & Hall).
    exists (v :: vs), m'. repeat split; [simpl; lia|].
    constructor; assumption.
Qed.

(** C7. For each of the five modes, every [base >= 0], every
    [jitter >= 0] and every seed, any number of [sample_ns] calls in a row
    on the new model all return, and return non-negative integers. *)
Theorem sample_ns_nonnegative (mode_arg : string) (base_ns jitter_ns : Z)
    (seed : option Z) (n : nat) :
  In mode_arg ["const"; "uniform"; "normal"; "lognormal"; "heavy"]%string ->
  0 <= base_ns -> 0 <= jitter_ns ->
  exists vs m',
    sample_many n (new_model mode_arg base_ns jitter_ns seed) = Some (vs, m')
    /\ length vs = n
    /\ Forall (fun v => 0 <= v) vs.
Proof.
  intros _ _ _. apply sample_many_ok, new_model_ok.
Qed.

(** X14. In [const] mode every call returns [base], whatever the seed and the
    jitter. *)
Theorem const_mode_returns_base (base_ns jitter_ns : Z) (seed : option Z)
    (n : nat) :
  sample_many n (new_model "const" base_ns jitter_ns seed)
  = Some (repeat (Z.max 0 base_ns) n,
          new_model "const" base_ns jitter_ns seed).
Proof.
  induction n as [|n IH]; [reflexivity|].
  cbn [sample_many repeat].
  change (sample_ns (new_model "const" base_ns jitter_ns seed))
    with (Some (Z.max 0 base_ns, new_model "const" base_ns jitter_ns seed)).
  cbv beta iota. rewrite IH. reflexivity.
Qed.

(** *** The simulated output line *)

Definition edge_now (o : SimOutLine) (value : Z) : nat :=
  if (_last_value o =? 0) && (normalize value =? 1) then 1%nat else 0%nat.

Lemma set_value_ok (value now : Z) (o : SimOutLine) :
  model_ok (_model o) ->
  exists o',
    set_value value now o = Some o'
    /\ model_ok (_model o')
    /\ _last_value o' = normalize value
    /\ length (scheduled o') = (length (scheduled o) + edge_now o value)%nat
    /\ is_shutdown (_scheduler o') = is_shutdown (_scheduler o)
    /\ (is_shutdown (_scheduler o) = false ->
        length (pending (_scheduler o'))
        = (length (pending (_scheduler o)) + edge_now o value)%nat).
Proof.
  intros Hok. unfold set_value, edge_now.
  destruct ((_last_value o =? 0) && (normalize value =? 1)).
  - destruct (sample_ns_ok _ Hok) as (v & g & -> & _).
    eexists. split; [reflexivity|]. cbn.
    split; [apply with_rng_ok, Hok|]. split; [reflexivity|].
    split; [rewrite length_app; reflexivity|].
    unfold schedule_edge_at.
    destruct (is_shutdown (_scheduler o)) eqn:Hs; cbn;
      [rewrite Hs; split; [reflexivity|discriminate]|].
    split; [reflexivity|]. intros _.
    rewrite StatsFacts.insert_sorted_length. lia.
  - eexists. split; [reflexivity|]. cbn.
    split; [exact Hok|]. split; [reflexivity|].
    split; [lia|]. split; [reflexivity|]. intros _. lia.
Qed.

Lemma set_values_ok (calls : list (Z * Z)) :
  forall o,
    model_ok (_model o) ->
    exists o',
      set_values calls o = Some o'
      /\ length (scheduled o')
         = (length (scheduled o)
            + rising_edges (_last_value o)
                (map (fun c => normalize (fst c)) calls))%nat
      /\ (is_shutdown (_scheduler o) = false ->
          length (pending (_scheduler o'))
          = (length (pending (_scheduler o))
             + rising_edges (_last_value o)
                 (map (fun c => normalize (fst c)) calls))%nat).
Proof.
  induction calls as [|[value now] calls IH]; intros o Hok; simpl.
  - exists o. repeat split; intros; lia.
  - destruct (set_value_ok value now o Hok)
      as (o1 & -> & Hok1 & Hlast & Hlen & Hshut & Hpend).
    destruct (IH o1 Hok1) as (o' & -> & Hlen' & Hpend').
    exists o'. split; [reflexivity|].
    rewrite Hlast, Hshut in *. unfold edge_now in *.
    destruct ((_last_value o =? 0) && (normalize value =? 1));
      split; intros; try (rewrite Hpend' by assumption; rewrite Hpend by assumption); lia.
Qed.

(** C8. On a line made by [setup_sim_lines], any sequence of
    [set_value] calls invokes [schedule_edge_at] exactly once per 0-to-1
    transition of the normalized value (and leaves that many timestamps
    pending); a [set_value] on a line whose last value is 1 schedules
    nothing. *)
Theorem set_value_edge_triggered (mode_arg : string)
    (base_lat_us jitter_us : Z) (seed : option Z) (calls : list (Z * Z)) :
  (exists o',
      set_values calls (setup_sim_lines mode_arg base_lat_us jitter_us seed)
      = Some o'
      /\ length (scheduled o')
         = rising_edges 0 (map (fun c => normalize (fst c)) calls)
      /\ length (pending (_scheduler o')) = length (scheduled o'))
  /\ (forall o value now,
        _last_value o = 1 ->
        set_value value now o
        = Some (mkOut (_scheduler o) (_model o) (normalize value)
                      (scheduled o))).
Proof.
  split.
  - destruct (set_values_ok calls
                (setup_sim_lines mode_arg base_lat_us jitter_us seed)
                (new_model_ok _ _ _ _)) as (o' & Hrun & Hlen & Hpend).
    exists o'. split; [exact Hrun|]. simpl in Hlen, Hpend.
    split; [exact Hlen|]. rewrite Hpend by reflexivity. lia.
  - intros o value now Hlast. unfold set_value. rewrite Hlast. reflexivity.
Qed.

End Generic.

Lemma sample_ns_nonnegative_witness :
  exists vs m',
    sample_many 3 (new_model (RS := lcg) "uniform" 400000 150000 (Some 42))
    = Some (vs, m')
    /\ length vs = 3%nat
    /\ Forall (fun v => 0 <= v) vs.
Proof.
  apply (sample_ns_nonnegative "uniform" 400000 150000 (Some 42) 3).
  - simpl. tauto.
  - lia.
  - lia.
Defined.

Lemma set_value_edge_triggered_witness :
  exists o',
    set_values [(1, 10); (1, 20); (0, 30); (5, 40)]
               (setup_sim_lines (RS := lcg) "const" 500 0 (Some 42))
    = Some o'
    /\ length (scheduled o') = 2%nat.
Proof.
  destruct (set_value_edge_triggered (RS := lcg) "const" 500 0 (Some 42)
              [(1, 10); (1, 20); (0, 30); (5, 40)])
    as [(o' & Hrun & Hlen & _) _].
  exists o'. split; [exact Hrun|exact Hlen].
Defined.

(** *** The lognormal parameters *)

Section Lognormal.

Local Open Scope R_scope.

(** The parameters computed from a positive target median [b] and a
    positive target standard deviation [s]. *)
Lemma lognormal_parameters_facts (b s : R) :
  0 < b -> 0 < s ->
  let sigma := sqrt (ln (1 + (s / b) ^ 2)) in
  let mu := ln b - 0.5 * sigma ^ 2 in
  lognormal_mean mu sigma = b
  /\ lognormal_std mu sigma = s
  /\ lognormal_median mu sigma = b * exp (- (sigma ^ 2 / 2))
  /\ lognormal_median mu sigma < b.
Proof.
  intros Hb Hs sigma mu.
  assert (Hx : 0 < (s / b) ^ 2).
  { apply pow_lt. apply Rdiv_lt_0_compat; assumption. }
  assert (HL : 0 < ln (1 + (s / b) ^ 2)).
  { rewrite <- ln_1. apply ln_increasing; lra. }
  assert (Hsig : sigma ^ 2 = ln (1 + (s / b) ^ 2)).
  { unfold sigma. apply pow2_sqrt. lra. }
  unfold lognormal_mean, lognormal_std, lognormal_variance, lognormal_median.
  unfold mu. rewrite Hsig.
  set (L := ln (1 + (s / b) ^ 2)) in *.
  split; [|split; [|split]].
  - replace (ln b - 0.5 * L + L / 2) with (ln b) by lra.
    apply exp_ln, Hb.
  - replace (2 * (ln b - 0.5 * L) + L) with (ln b + ln b) by lra.
    rewrite exp_plus, exp_ln by exact Hb.
    unfold L. rewrite exp_ln by lra.
    replace ((1 + (s / b) ^ 2 - 1) * (b * b)) with (s ^ 2)
      by (field; lra).
    apply sqrt_pow2. lra.
  - replace (ln b - 0.5 * L) with (ln b + - (L / 2)) by lra.
    rewrite exp_plus, exp_ln by exact Hb. reflexivity.
  - replace b with (exp (ln b)) at 2 by (apply exp_ln, Hb).
    apply exp_increasing. lra.
Qed.

Context {RS : RandomSource}.

(** The object [__init__] builds in lognormal mode. *)
Lemma new_model_lognormal (base_ns jitter_ns : Z) (seed : option Z) :
  let b := if Z.max 0 base_ns <=? 0 then 1000%Z else Z.max 0 base_ns in
  let s := Rmax (IZR (Z.max 0 jitter_ns)) (IZR b * 0.1) in
  let sigma := sqrt (ln (1 + (s / IZR b) ^ 2)) in
  new_model "lognormal" base_ns jitter_ns seed
  = mkModel "lognormal" b (Z.max 0 jitter_ns) (Random seed)
            (Some (ln (IZR b))) (Some sigma)
            (Some (ln (IZR b) - 0.5 * sigma ^ 2)) None None.
Proof. reflexivity. Qed.



(** C10. A lognormal model built with [base_ns = 0] is the very object
    built with [base_ns = 1000]: its [base] is 1000, the lognormal
    distribution its parameters define has mean 1000 and a positive median,
    and every sequence of [sample_ns] calls returns what it returns on the
    model built with 1000. *)
Theorem lognormal_zero_base (jitter_ns : Z) (seed : option Z) :
  new_model "lognormal" 0 jitter_ns seed
  = new_model "lognormal" 1000 jitter_ns seed
  /\ base (new_model "lognormal" 0 jitter_ns seed) = 1000%Z
  /\ (exists mu sigma,
        ln_mu (new_model "lognormal" 0 jitter_ns seed) = Some mu
        /\ ln_sigma (new_model "lognormal" 0 jitter_ns seed) = Some sigma
        /\ lognormal_mean mu sigma = 1000
        /\ 0 < lognormal_median mu sigma < 1000)
  /\ (forall n,
        sample_many n (new_model "lognormal" 0 jitter_ns seed)
        = sample_many n (new_model "lognormal" 1000 jitter_ns seed)).
Proof.
  assert (Heq : new_model "lognormal" 0 jitter_ns seed
                = new_model "lognormal" 1000 jitter_ns seed) by reflexivity.
  split; [exact Heq|]. split; [reflexivity|]. split.
  - rewrite new_model_lognormal. cbv zeta. cbn [ln_mu ln_sigma].
    change (if (Z.max 0 0 <=? 0)%Z then 1000%Z else Z.max 0 0) with 1000%Z.
    assert (Hs : 0 < Rmax (IZR (Z.max 0 jitter_ns)) (1000 * 0.1)).
    { eapply Rlt_le_trans; [|apply Rmax_r]. lra. }
    destruct (lognormal_parameters_facts 1000 _ ltac:(lra) Hs)
      as (H1 & _ & _ & H4).
    do 2 eexists. split; [reflexivity|]. split; [reflexivity|].
    split; [exact H1|]. split; [apply exp_pos|exact H4].
  - intros n. rewrite Heq. reflexivity.
Qed.

End Lognormal.


End SimFacts.

(** ** Statistics engine: further properties *)

Module StatsMore.
Import Stats StatsFacts Percentiles.


Lemma np_array_int64_nonempty (l : list dt) (arr : list Z) :
  np_array_int64 l = Some arr -> l <> [] -> arr <> [].
Proof.
  destruct l as [|d l]; [congruence|]. simpl.
  destruct d as [| |z]; try discriminate.
  destruct (in_int64 z); [|discriminate].
  destruct (np_array_int64 l); [|discriminate].
  intros [= <-] _. discriminate.
Qed.



Lemma np_percentile_single (v q : Z) : np_percentile [v] q = IZR v.
Proof.
  unfold np_percentile. simpl. unfold nthZ. simpl. lra.
Qed.

(** X3. [compute_percentiles] and [compute_full_stats] follow one convention:
    on every list the first returns exactly the [p50], [p95], [p99] and
    [max] fields of what the second returns (and raises when it does). *)
Theorem compute_percentiles_agrees (l : list dt) :
  compute_percentiles l
  = option_map (fun r => (p50_ns r, p95_ns r, p99_ns r, max_ns r))
               (compute_full_stats l).
Proof.
  unfold compute_percentiles, compute_full_stats.
  destruct l as [|d0 l0]; [reflexivity|].
  destruct (valid_dts (d0 :: l0)) as [|d v] eqn:Hv; [reflexivity|].
  destruct (np_array_int64 (d :: v)) as [arr|] eqn:Harr; [|reflexivity].
  destruct arr as [|a [|b arr]]; simpl.
  - exfalso. eapply np_array_int64_nonempty; [exact Harr|discriminate|].
    reflexivity.
  - rewrite !np_percentile_single. reflexivity.
  - reflexivity.
Qed.

(** *** The order of the samples does not matter *)

Lemma insert_sorted_comm (x y : Z) (s : list Z) :
  insert_sorted x (insert_sorted y s) = insert_sorted y (insert_sorted x s).
Proof.
  induction s as [|h s IH]; simpl.
  - destruct (Z.leb_spec x y), (Z.leb_spec y x); try reflexivity; try lia.
    assert (x = y) by lia. subst. reflexivity.
  - destruct (Z.leb_spec y h), (Z.leb_spec x h); simpl;
      repeat match goal with
             | |- context [?a <=? ?b] => destruct (Z.leb_spec a b)
             end; try reflexivity; try lia.
    + assert (x = y) by lia. subst. reflexivity.
    + rewrite IH. reflexivity.
Qed.

Lemma np_sort_permutation (a b : list Z) :
  Permutation a b -> np_sort a = np_sort b.
Proof.
  induction 1 as [|x a b _ IH|x y a|a b c _ IH1 _ IH2]; simpl.
  - reflexivity.
  - rewrite IH. reflexivity.
  - apply insert_sorted_comm.
  - congruence.
Qed.













End StatsMore.

(** ** The summary and the CSV file *)

Module OutputFacts.
Import Pairing Report Csv.

Lemma dts_of_length (samples : list Sample) :
  length (dts_of samples) = length (filter has_dt samples).
Proof.
  unfold dts_of, has_dt. induction samples as [|s samples IH]; simpl;
    [reflexivity|].
  destruct (dt_ns s); simpl; rewrite IH; reflexivity.
Qed.

Lemma dts_of_valid_length (samples : list Sample) :
  length (Stats.valid_dts (dts_of samples))
  = length (filter (fun s => has_dt s && negb (negative_dt s)) samples).
Proof.
  unfold dts_of, Stats.valid_dts, has_dt, negative_dt.
  induction samples as [|s samples IH]; [reflexivity|].
  cbn [flat_map filter]. destruct (dt_ns s) as [d|]; [|exact IH].
  cbn [app filter]. change (Stats.keep (Stats.Val d)) with (0 <=? d).
  destruct (Z.leb_spec 0 d), (Z.ltb_spec d 0); try lia;
    cbn [andb negb length]; rewrite IH; reflexivity.
Qed.

Lemma filter_split_length {A : Type} (f g : A -> bool) (l : list A) :
  (length (filter (fun x => f x && negb (g x)) l)
   + length (filter (fun x => f x && g x) l))%nat
  = length (filter f l).
Proof.
  induction l as [|x l IH]; simpl; [reflexivity|].
  destruct (f x), (g x); simpl; lia.
Qed.

(** X5. The summary [main] prints is computed from the deltas of the hits
    only: [total_samples] is the number of samples that have a delta (the
    misses of the run are not in it), [successful_samples] the number of
    those whose delta is not negative, and [missed_samples] the number of
    hits with a negative delta. *)
Theorem summary_counts_hits_only (samples : list Sample)
    (stats : Stats.LatencyResult) :
  Stats.compute_full_stats (dts_of samples) = Some stats ->
  Stats.total_samples stats = Z.of_nat (length (filter has_dt samples))
  /\ Stats.successful_samples stats
     = Z.of_nat (length (filter (fun s => has_dt s && negb (negative_dt s))
                                samples))
  /\ Stats.missed_samples stats
     = Z.of_nat (length (filter (fun s => has_dt s && negative_dt s)
                                samples))
  /\ Stats.total_samples stats
     = Z.of_nat (length samples)
       - Z.of_nat (length (filter (fun s => negb (has_dt s)) samples)).
Proof.
  intros Hr. apply StatsFacts.compute_full_stats_counts in Hr.
  destruct Hr as (Ht & Hs & Hm).
  rewrite dts_of_length in Ht, Hm. rewrite dts_of_valid_length in Hs, Hm.
  pose proof (filter_split_length has_dt negative_dt samples) as Hsplit.
  pose proof (filter_length has_dt samples) as Hall.
  repeat split; lia.
Qed.

Lemma summary_counts_hits_only_witness :
  exists stats,
    Stats.compute_full_stats
      (dts_of [hit 0 100 150; miss 1 200; miss 2 300; hit 3 400 390])
    = Some stats
    /\ Stats.total_samples stats = 2
    /\ Stats.missed_samples stats = 1.
Proof.
  eexists. split; [reflexivity|].
  destruct (summary_counts_hits_only
              [hit 0 100 150; miss 1 200; miss 2 300; hit 3 400 390]
              _ eq_refl) as (Ht & _ & Hm & _).
  split; [exact Ht|exact Hm].
Defined.

(** *** The CSV rows *)

Lemma decimal_value_py_str (z : Z) : decimal_value (py_str z) = Some z.
Proof.
  unfold decimal_value, py_str. rewrite NilZero.isi.
  - simpl. f_equal. apply DecimalZ.of_to.
  - destruct z as [|p|p]; simpl; try discriminate.
    intros [= H]. exact (DecimalPos.Unsigned.to_uint_nonnil p H).
  - destruct z as [|p|p]; simpl; try discriminate.
    intros [= H]. exact (DecimalPos.Unsigned.to_uint_nonnil p H).
Qed.

Lemma py_str_nonempty (z : Z) : py_str z <> EmptyString.
Proof.
  intros He. pose proof (decimal_value_py_str z) as H.
  rewrite He in H. discriminate.
Qed.

Lemma decimal_value_field (x : option Z) : decimal_value (field x) = x.
Proof.
  destruct x as [z|]; [apply decimal_value_py_str|reflexivity].
Qed.

(** X6. The CSV file has the header and one row of three fields per sample, and
    the rows read back as decimal numerals give every sample again: its send
    timestamp, and its edge timestamp and delta, absent exactly for a
    miss. *)
Theorem csv_rows_round_trip (samples : list Sample) :
  length (csv_rows samples) = S (length samples)
  /\ hd [] (csv_rows samples) = ["ts_send_ns"; "ts_edge_ns"; "dt_ns"]%string
  /\ Forall (fun r => length r = 3%nat) (csv_rows samples)
  /\ map (fun r => (decimal_value (nth 0 r EmptyString),
                    decimal_value (nth 1 r EmptyString),
                    decimal_value (nth 2 r EmptyString)))
         (tl (csv_rows samples))
     = map (fun s => (Some (ts_send s), ts_edge s, dt_ns s)) samples.
Proof.
  unfold csv_rows. simpl. split; [rewrite length_map; reflexivity|].
  split; [reflexivity|]. split.
  - constructor; [reflexivity|]. apply Forall_forall. intros r Hr.
    apply in_map_iff in Hr. destruct Hr as [s [<- _]]. reflexivity.
  - rewrite map_map. apply map_ext. intros s. unfold row. cbn [nth].
    rewrite decimal_value_py_str, !decimal_value_field. reflexivity.
Qed.

(** X7. The number of rows whose [dt_ns] field is not empty is the number of
    samples that have a delta. *)
Theorem csv_nonempty_dt_fields (samples : list Sample) :
  length (filter (fun f => negb (String.eqb f EmptyString))
                 (dt_column (csv_rows samples)))
  = length (filter has_dt samples).
Proof.
  unfold dt_column, csv_rows, has_dt. simpl.
  induction samples as [|s samples IH]; simpl; [reflexivity|].
  destruct (dt_ns s) as [d|]; simpl.
  - destruct (String.eqb_spec (py_str d) EmptyString) as [He|_];
      [exfalso; exact (py_str_nonempty d He)|].
    simpl. rewrite IH. reflexivity.
  - exact IH.
Qed.

End OutputFacts.

(** ** Pairing engine: further properties *)

Module PairingMore.
Import Pairing PairingFacts.

Lemma dict_set_In (k v : Z) (d : dict) (kv : Z * Z) :
  In kv (dict_set k v d) -> kv = (k, v) \/ In kv d.
Proof.
  induction d as [|[k' v'] d IH]; simpl.
  - intuition.
  - destruct (k =? k'); simpl; intuition.
Qed.

Lemma dict_set_NoDup (k v : Z) (d : dict) :
  NoDup (keys d) -> NoDup (keys (dict_set k v d)).
Proof.
  induction d as [|[k' v'] d IH]; simpl.
  - intros _. repeat constructor. simpl; tauto.
  - intros Hnd. inversion Hnd as [|? ? Hk' Hd]; subst.
    destruct (Z.eqb_spec k k') as [->|Hne]; simpl.
    + constructor; assumption.
    + constructor; [|apply IH, Hd].
      intros Hin. apply dict_set_keys in Hin. destruct Hin; [congruence|tauto].
Qed.

(** *** Samples are never made up *)

(** Every buffered record and every sample comes from records taken from
    the queues: [S] the sends, [E] the edges. *)
Record sound (S E : list (Z * Z)) (st : state) : Prop := mkSound {
  sound_sb : forall kv, In kv (send_buffer st) -> In kv S;
  sound_eb : forall kv, In kv (edge_buffer st) -> In kv E;
  sound_samples :
    forall s, In s (samples st) ->
              In (sample_seq s, ts_send s) S
              /\ exists te, In (sample_seq s, te) E
                            /\ s = hit (sample_seq s) (ts_send s) te
}.

Lemma sound_more (S E S' E' : list (Z * Z)) (st : state) :
  sound S E st -> sound (S ++ S') (E ++ E') st.
Proof.
  intros [H1 H2 H3]. constructor.
  - intros kv Hkv. apply in_app_iff. left. apply H1, Hkv.
  - intros kv Hkv. apply in_app_iff. left. apply H2, Hkv.
  - intros s Hs. destruct (H3 s Hs) as [Ha [te [Hb Hc]]].
    split; [apply in_app_iff; left; exact Ha|].
    exists te. split; [apply in_app_iff; left; exact Hb|exact Hc].
Qed.

Lemma sound_hit (S E : list (Z * Z)) (st : state) (q ts te : Z)
    (sb eb : dict) :
  sound S E st -> In (q, ts) S -> In (q, te) E ->
  (forall kv, In kv sb -> In kv S) -> (forall kv, In kv eb -> In kv E) ->
  sound S E (mkState (samples st ++ [hit q ts te]) sb eb).
Proof.
  intros [H1 H2 H3] HS HE Hsb Heb. constructor; simpl; try assumption.
  intros s Hs. apply in_app_iff in Hs. destruct Hs as [Hs|[<-|[]]].
  - apply H3, Hs.
  - simpl. split; [exact HS|]. exists te. split; [exact HE|reflexivity].
Qed.

Lemma process_send_sound (S E : list (Z * Z)) (st : state) (rec : Z * Z) :
  sound S E st -> sound (S ++ [rec]) E (process_send st rec).
Proof.
  intros Hs. destruct rec as [q ts]. unfold process_send.
  pose proof (sound_more S E [(q, ts)] [] st Hs) as Hs'.
  rewrite app_nil_r in Hs'. destruct Hs' as [H1 H2 H3].
  assert (Hsb : forall kv, In kv (dict_set q ts (send_buffer st)) ->
                           In kv (S ++ [(q, ts)])).
  { intros kv Hkv. apply dict_set_In in Hkv. destruct Hkv as [->|Hkv].
    - apply in_app_iff. right; left; reflexivity.
    - apply H1, Hkv. }
  destruct (dict_get q (edge_buffer st)) as [te|] eqn:Hget.
  - apply sound_hit.
    + constructor; assumption.
    + apply in_app_iff. right; left; reflexivity.
    + apply H2. apply dict_get_In, Hget.
    + exact Hsb.
    + intros kv Hkv. apply H2. eapply dict_remove_incl, Hkv.
  - constructor; simpl; assumption.
Qed.

Lemma edge_match_sound (S E : list (Z * Z)) (st : state) (q ts te : Z) :
  sound S E st -> dict_get q (send_buffer st) = Some ts ->
  sound S (E ++ [(q, te)])
        (mkState (samples st ++ [hit q ts te])
                 (dict_remove q (send_buffer st)) (edge_buffer st)).
Proof.
  intros Hs Hget.
  pose proof (sound_more S E [] [(q, te)] st Hs) as Hs'.
  rewrite app_nil_r in Hs'. pose proof Hs' as [H1 H2 H3].
  apply (sound_hit _ _ st); try assumption.
  - apply H1. apply dict_get_In, Hget.
  - apply in_app_iff. right; left; reflexivity.
  - intros kv Hkv. apply H1. eapply dict_remove_incl, Hkv.
Qed.

Lemma process_edge_sound (S E : list (Z * Z)) (st : state) (rec : Z * Z) :
  sound S E st -> sound S (E ++ [rec]) (process_edge st rec).
Proof.
  intros Hs. destruct rec as [q te]. unfold process_edge.
  destruct (dict_get q (send_buffer st)) as [ts|] eqn:Hget.
  - apply edge_match_sound; assumption.
  - pose proof (sound_more S E [] [(q, te)] st Hs) as Hs'.
    rewrite app_nil_r in Hs'. destruct Hs' as [H1 H2 H3].
    constructor; simpl; try assumption.
    intros kv Hkv. apply dict_set_In in Hkv. destruct Hkv as [->|Hkv].
    + apply in_app_iff. right; left; reflexivity.
    + apply H2, Hkv.
Qed.

Lemma cleanup_sound (S E : list (Z * Z)) (st : state) (c : Z) :
  sound S E st -> sound S E (cleanup st c).
Proof.
  intros Hs. unfold cleanup.
  destruct (Z.of_nat (length (samples st)) mod 1000 =? 0); [|exact Hs].
  destruct Hs as [H1 H2 H3]. constructor; simpl; try assumption.
  - intros kv Hkv. apply H1. apply dict_newer_In in Hkv. tauto.
  - intros kv Hkv. apply H2. apply dict_newer_In in Hkv. tauto.
Qed.

Lemma main_step_sound (S E : list (Z * Z)) (st : state) (it : main_iter) :
  sound S E st ->
  sound (S ++ somes [got_send it]) (E ++ somes [got_edge it])
        (main_step st it).
Proof.
  intros Hs. unfold main_step. apply cleanup_sound.
  assert (H1 : sound (S ++ somes [got_send it]) E
                     (on_some process_send st (got_send it))).
  { destruct (got_send it) as [rec|].
    - apply (process_send_sound S E st rec), Hs.
    - change (somes [@None (Z * Z)]) with (@nil (Z * Z)).
      rewrite app_nil_r. exact Hs. }
  destruct (got_edge it) as [rec|].
  - apply (process_edge_sound _ E _ rec), H1.
  - change (somes [@None (Z * Z)]) with (@nil (Z * Z)).
    rewrite app_nil_r. exact H1.
Qed.

Lemma somes_cons {A : Type} (o : option A) (l : list (option A)) :
  somes (o :: l) = somes [o] ++ somes l.
Proof. apply (somes_app [o] l). Qed.

Lemma main_loop_sound (main : list main_iter) :
  forall S E st,
    sound S E st ->
    sound (S ++ somes (map got_send main)) (E ++ somes (map got_edge main))
          (main_loop main st).
Proof.
  unfold main_loop.
  induction main as [|it main IH]; intros S E st Hs.
  - simpl. rewrite !app_nil_r. exact Hs.
  - cbn [map fold_left]. rewrite (somes_cons (got_send it)),
      (somes_cons (got_edge it)), !app_assoc.
    apply IH, main_step_sound, Hs.
Qed.

Lemma drain_step_sound (S E : list (Z * Z)) (st : state) (it : drain_iter) :
  sound S E st ->
  sound (S ++ somes [drained_send it]) (E ++ somes [drained_edge it])
        (drain_step st it).
Proof.
  intros Hs. unfold drain_step.
  assert (H1 : sound (S ++ somes [drained_send it]) E
                     (on_some drain_send st (drained_send it))).
  { destruct (drained_send it) as [[q ts]|].
    - change (somes [Some (q, ts)]) with [(q, ts)]. simpl.
      pose proof (sound_more S E [(q, ts)] [] st Hs) as Hs'.
      rewrite app_nil_r in Hs'. destruct Hs' as [Ha Hb Hc].
      constructor; simpl; try assumption.
      intros kv Hkv. apply dict_set_In in Hkv. destruct Hkv as [->|Hkv].
      + apply in_app_iff. right; left; reflexivity.
      + apply Ha, Hkv.
    - change (somes [@None (Z * Z)]) with (@nil (Z * Z)).
      rewrite app_nil_r. exact Hs. }
  destruct (drained_edge it) as [[q te]|].
  - change (somes [Some (q, te)]) with [(q, te)].
    unfold on_some at 1, drain_edge.
    destruct (dict_get q (send_buffer _)) as [ts|] eqn:Hget.
    + apply edge_match_sound; assumption.
    + pose proof (sound_more _ E [] [(q, te)] _ H1) as Hs'.
      rewrite app_nil_r in Hs'. exact Hs'.
  - change (somes [@None (Z * Z)]) with (@nil (Z * Z)).
    rewrite app_nil_r. exact H1.
Qed.

Lemma drain_fold_sound (its : list drain_iter) :
  forall S E st,
    sound S E st ->
    sound (S ++ somes (map drained_send its))
          (E ++ somes (map drained_edge its))
          (fold_left drain_step its st).
Proof.
  induction its as [|it its IH]; intros S E st Hs.
  - simpl. rewrite !app_nil_r. exact Hs.
  - cbn [map fold_left]. rewrite (somes_cons (drained_send it)),
      (somes_cons (drained_edge it)), !app_assoc.
    apply IH, drain_step_sound, Hs.
Qed.

(** X9. In every run, whatever the order of arrival and whatever the clean-up
    evicts, each sample of the final list stems from a send record taken
    from the queue, whose timestamp it carries; it is either the miss of
    that record or a hit whose edge timestamp is that of an edge record
    with the same sequence number, with delta [ts_edge - ts_send]. *)
Theorem pairing_sound (main : list main_iter) (drain : list drain_iter)
    (s : Sample) :
  In s (pairing main drain) ->
  In (sample_seq s, ts_send s) (sends_of main drain)
  /\ (s = miss (sample_seq s) (ts_send s)
      \/ exists te, In (sample_seq s, te) (edges_of main drain)
                    /\ ts_edge s = Some te
                    /\ dt_ns s = Some (te - ts_send s)).
Proof.
  assert (Hs : sound (sends_of main drain) (edges_of main drain)
                     (drain_loop drain (main_loop main init))).
  { unfold sends_of, edges_of. rewrite drain_loop_run.
    apply drain_fold_sound.
    apply (main_loop_sound main [] [] init).
    constructor; simpl; tauto. }
  destruct Hs as [H1 H2 H3]. unfold pairing, add_misses.
  intros Hin. apply in_app_iff in Hin. destruct Hin as [Hin|Hin].
  - destruct (H3 s Hin) as [Ha [te [Hb Hc]]]. split; [exact Ha|].
    right. exists te. split; [exact Hb|]. rewrite Hc. simpl. tauto.
  - apply in_map_iff in Hin. destruct Hin as [[k v] [<- Hkv]]. simpl.
    split; [apply H1, Hkv|left; reflexivity].
Qed.

Lemma pairing_sound_witness :
  In (0, 100) (sends_of edge_first [])
  /\ (hit 0 100 150 = miss 0 100
      \/ exists te, In (0, te) (edges_of edge_first [])
                    /\ Some 150 = Some te /\ Some 50 = Some (te - 100)).
Proof.
  apply (pairing_sound edge_first [] (hit 0 100 150)).
  left. reflexivity.
Defined.

(** *** The clean-up bounds the buffers *)

Lemma keys_in_window (d : dict) (c : Z) :
  NoDup (keys d) ->
  (forall k, In k (keys d) -> c - 10000 < k < c) ->
  Z.of_nat (length d) < 10000.
Proof.
  intros Hnd Hk.
  assert (Hincl : incl (keys d)
                    (map (fun i => c - 9999 + Z.of_nat i)
                         (seq 0 (Z.to_nat 9999)))).
  { intros k Hin. specialize (Hk k Hin). apply in_map_iff.
    exists (Z.to_nat (k - (c - 9999))). split; [lia|].
    apply in_seq. lia. }
  pose proof (NoDup_incl_length Hnd Hincl) as Hlen.
  unfold keys in Hlen. rewrite !length_map, length_seq in Hlen. lia.
Qed.

Lemma process_send_keys (st : state) (rec : Z * Z) :
  NoDup (keys (send_buffer st)) -> NoDup (keys (edge_buffer st)) ->
  NoDup (keys (send_buffer (process_send st rec)))
  /\ NoDup (keys (edge_buffer (process_send st rec))).
Proof.
  intros Hs He. destruct rec as [q ts]. unfold process_send.
  destruct (dict_get q (edge_buffer st)); simpl;
    (split; [apply dict_set_NoDup, Hs|]);
    [apply dict_remove_NoDup, He|exact He].
Qed.

Lemma process_edge_keys (st : state) (rec : Z * Z) :
  NoDup (keys (send_buffer st)) -> NoDup (keys (edge_buffer st)) ->
  NoDup (keys (send_buffer (process_edge st rec)))
  /\ NoDup (keys (edge_buffer (process_edge st rec))).
Proof.
  intros Hs He. destruct rec as [q te]. unfold process_edge.
  destruct (dict_get q (send_buffer st)); simpl.
  - split; [apply dict_remove_NoDup, Hs|exact He].
  - split; [exact Hs|apply dict_set_NoDup, He].
Qed.

Lemma main_step_keys (st : state) (it : main_iter) :
  NoDup (keys (send_buffer st)) -> NoDup (keys (edge_buffer st)) ->
  NoDup (keys (send_buffer (main_step st it)))
  /\ NoDup (keys (edge_buffer (main_step st it))).
Proof.
  intros Hs He. unfold main_step.
  assert (H1 : NoDup (keys (send_buffer
                              (on_some process_send st (got_send it))))
               /\ NoDup (keys (edge_buffer
                                 (on_some process_send st (got_send it))))).
  { destruct (got_send it); simpl; [apply process_send_keys|split];
      assumption. }
  destruct H1 as [Hs1 He1].
  assert (H2 : NoDup (keys (send_buffer
                              (on_some process_edge
                                 (on_some process_send st (got_send it))
                                 (got_edge it))))
               /\ NoDup (keys (edge_buffer
                                 (on_some process_edge
                                    (on_some process_send st (got_send it))
                                    (got_edge it))))).
  { destruct (got_edge it); simpl; [apply process_edge_keys|split];
      assumption. }
  destruct H2 as [Hs2 He2]. unfold cleanup.
  destruct (_ =? 0); simpl; [|split; assumption].
  split; apply dict_newer_NoDup; assumption.
Qed.

Lemma main_loop_keys (main : list main_iter) :
  forall st,
    NoDup (keys (send_buffer st)) -> NoDup (keys (edge_buffer st)) ->
    NoDup (keys (send_buffer (main_loop main st)))
    /\ NoDup (keys (edge_buffer (main_loop main st))).
Proof.
  unfold main_loop. induction main as [|it main IH]; intros st Hs He; simpl.
  - split; assumption.
  - destruct (main_step_keys st it Hs He) as [Hs' He']. apply IH; assumption.
Qed.

(** X10. After every iteration of the measuring loop in which the clean-up ran
    (the number of samples is a multiple of 1000), each buffer holds fewer
    than 10000 records, provided the sequence numbers taken from the queues
    so far are below the value of [seq_counter] the clean-up read. *)
Theorem cleanup_bounds_buffers (main : list main_iter) (it : main_iter) :
  Z.of_nat (length (samples (main_loop (main ++ [it]) init))) mod 1000 = 0 ->
  (forall q, In q (map fst (somes (map got_send (main ++ [it])))
                   ++ map fst (somes (map got_edge (main ++ [it])))) ->
             q < seq_counter it) ->
  Z.of_nat (length (send_buffer (main_loop (main ++ [it]) init))) < 10000
  /\ Z.of_nat (length (edge_buffer (main_loop (main ++ [it]) init))) < 10000.
Proof.
  intros Hmod Hlt.
  pose proof (main_loop_sound (main ++ [it]) [] [] init
                ltac:(constructor; simpl; tauto)) as Hso.
  simpl app in Hso.
  destruct (main_loop_keys (main ++ [it]) init) as [Hks Hke];
    [constructor|constructor|].
  destruct Hso as [H1 H2 _].
  unfold main_loop in *. rewrite fold_left_app in *. cbn [fold_left] in *.
  set (st := fold_left main_step main init) in *.
  unfold main_step in *.
  set (st2 := on_some process_edge (on_some process_send st (got_send it))
                      (got_edge it)) in *.
  unfold cleanup in *.
  destruct (Z.of_nat (length (samples st2)) mod 1000 =? 0) eqn:Hc.
  - cbn [send_buffer edge_buffer] in *.
    split; apply (keys_in_window _ (seq_counter it)); try assumption.
    + intros k Hk. unfold keys in Hk. apply in_map_iff in Hk.
      destruct Hk as [kv [<- Hkv]]. split.
      * apply dict_newer_In in Hkv. tauto.
      * apply Hlt. apply in_app_iff. left. apply in_map, H1, Hkv.
    + intros k Hk. unfold keys in Hk. apply in_map_iff in Hk.
      destruct Hk as [kv [<- Hkv]]. split.
      * apply dict_newer_In in Hkv. tauto.
      * apply Hlt. apply in_app_iff. right. apply in_map, H2, Hkv.
  - apply Z.eqb_neq in Hc. contradiction.
Qed.

Lemma cleanup_bounds_buffers_witness :
  Z.of_nat (length (send_buffer
                      (main_loop ([] ++ [mkMain (Some (0, 100)) None 1])
                                 init))) < 10000
  /\ Z.of_nat (length (edge_buffer
                         (main_loop ([] ++ [mkMain (Some (0, 100)) None 1])
                                    init))) < 10000.
Proof.
  apply (cleanup_bounds_buffers [] (mkMain (Some (0, 100)) None 1)).
  - reflexivity.
  - simpl. intros q [<-|[]]. lia.
Defined.

End PairingMore.

(** ** The two threads: sequence numbers *)

Module ThreadFacts.

Lemma seq_numbers_S (n : nat) :
  map Z.of_nat (seq 0 (S n)) = map Z.of_nat (seq 0 n) ++ [Z.of_nat n].
Proof. rewrite seq_S, map_app. reflexivity. Qed.

(** *** The pulse generator *)

Lemma toggler_attempts_app (l1 l2 : list Toggler.event) :
  Toggler.attempts (l1 ++ l2) = Toggler.attempts l1 ++ Toggler.attempts l2.
Proof. unfold Toggler.attempts. apply flat_map_app. Qed.

Lemma block_attempts (seq : Z) (b : list Toggler.event) :
  TogglerFacts.block seq b -> Toggler.attempts b = [seq].
Proof. intros []; reflexivity. Qed.

Definition numbered (st : Toggler.tstate) : Prop :=
  exists n : nat,
    Toggler.seq_counter st = Z.of_nat n
    /\ Toggler.attempts (Toggler.log st) = map Z.of_nat (seq 0 n).

Lemma cycle_numbered (st : Toggler.tstate) (e : Toggler.cycle_env) :
  numbered st -> numbered (fst (Toggler.cycle st e)).
Proof.
  intros (n & Hc & Ha).
  destruct (TogglerFacts.cycle_log st e) as [->|(b & Hb & Hlog & Hseq)].
  - exists n. split; assumption.
  - exists (S n). rewrite Hseq, Hlog, toggler_attempts_app, Ha,
      (block_attempts _ _ Hb), Hc, seq_numbers_S.
    split; [lia|reflexivity].
Qed.

Lemma toggler_numbered (envs : list Toggler.cycle_env) :
  forall st, numbered st -> numbered (Toggler.toggler envs st).
Proof.
  induction envs as [|e envs IH]; intros st Hn; simpl; [exact Hn|].
  destruct (Toggler.loop_running e); [|exact Hn].
  pose proof (cycle_numbered st e Hn) as Hc.
  destruct (Toggler.cycle st e) as [st' []]; simpl in Hc;
    [apply IH|]; exact Hc.
Qed.

(** X11. The pulse generator numbers its pulses 0, 1, 2, ... without a gap, and
    a pulse whose record the full queue refused still takes its number: the
    numbers of the records put and refused, in order, are exactly
    [0 .. seq_counter - 1]. *)
Theorem toggler_numbers_every_attempt (envs : list Toggler.cycle_env) :
  0 <= Toggler.seq_counter (Toggler.toggler envs Toggler.start)
  /\ Toggler.attempts (Toggler.log (Toggler.toggler envs Toggler.start))
     = map Z.of_nat
           (seq 0 (Z.to_nat (Toggler.seq_counter
                               (Toggler.toggler envs Toggler.start)))).
Proof.
  destruct (toggler_numbered envs Toggler.start) as (n & Hc & Ha).
  - exists 0%nat. split; reflexivity.
  - rewrite Ha, Hc, Nat2Z.id. split; [lia|reflexivity].
Qed.

(** *** The edge listener *)

Lemma listener_puts_app (l1 l2 : list Listener.event) :
  Listener.puts (l1 ++ l2) = Listener.puts l1 ++ Listener.puts l2.
Proof. unfold Listener.puts. apply flat_map_app. Qed.

Definition counted (st : Listener.lstate) : Prop :=
  exists n : nat,
    Listener.current_seq st = Z.of_nat n
    /\ map fst (Listener.puts (Listener.log st)) = map Z.of_nat (seq 0 n).

Lemma listener_cycle_counted (st : Listener.lstate)
    (e : Listener.cycle_env) :
  counted st -> counted (Listener.cycle st e).
Proof.
  intros (n & Hc & Hp). unfold Listener.cycle.
  destruct (Listener.wait_outcome e) as [| |[|]].
  - exists n. split; assumption.
  - destruct (Listener.queue_full e); simpl.
    + exists n. simpl. rewrite listener_puts_app. simpl.
      rewrite app_nil_r. split; assumption.
    + exists (S n). cbn [Listener.current_seq Listener.log].
      split; [lia|].
      rewrite listener_puts_app, map_app, Hp, Hc, seq_numbers_S.
      reflexivity.
  - exists n. split; assumption.
  - exists n. simpl. rewrite listener_puts_app. simpl.
    rewrite app_nil_r. split; assumption.
Qed.

Lemma listener_counted (envs : list Listener.cycle_env) :
  forall st, counted st -> counted (Listener.listener envs st).
Proof.
  induction envs as [|e envs IH]; intros st Hn; simpl; [exact Hn|].
  destruct (Listener.loop_running e); [|exact Hn].
  apply IH, listener_cycle_counted, Hn.
Qed.

(** X12. The listener numbers the EdgeRecords it managed to put 0, 1, 2, ...
    without a gap: an edge that timed out, raised or was refused by the
    full queue takes no number, so the records on the queue carry exactly
    [0 .. current_seq - 1]. *)
Theorem listener_numbers_only_puts (envs : list Listener.cycle_env) :
  Listener.current_seq (Listener.listener envs Listener.start)
  = Z.of_nat (length (Listener.puts
                        (Listener.log
                           (Listener.listener envs Listener.start))))
  /\ map fst (Listener.puts
                (Listener.log (Listener.listener envs Listener.start)))
     = map Z.of_nat
           (seq 0 (length (Listener.puts
                             (Listener.log
                                (Listener.listener envs Listener.start))))).
Proof.
  destruct (listener_counted envs Listener.start) as (n & Hc & Hp).
  - exists 0%nat. split; reflexivity.
  - assert (Hlen : length (Listener.puts
                             (Listener.log
                                (Listener.listener envs Listener.start)))
                   = n).
    { rewrite <- (length_map fst), Hp, length_map, length_seq.
      reflexivity. }
    rewrite Hlen. split; assumption.
Qed.

(** *** The pulse generator on the simulated line *)

Lemma toggler_commands_app (l1 l2 : list Toggler.event) :
  Toggler.commands (l1 ++ l2) = Toggler.commands l1 ++ Toggler.commands l2.
Proof. unfold Toggler.commands. apply flat_map_app. Qed.

Definition pulses (n : nat) : list Z := flat_map (fun _ => [1; 0]) (seq 0 n).

Lemma pulses_S (n : nat) : pulses (S n) = pulses n ++ [1; 0].
Proof. unfold pulses. rewrite seq_S, flat_map_app. reflexivity. Qed.

Definition pulsing (st : Toggler.tstate) : Prop :=
  Toggler.commands (Toggler.log st)
  = pulses (length (Toggler.puts (Toggler.log st))).

Lemma cycle_pulsing (st : Toggler.tstate) (e : Toggler.cycle_env) :
  Toggler.high_raises e = false -> Toggler.low_raises e = false ->
  pulsing st -> pulsing (fst (Toggler.cycle st e)).
Proof.
  intros Hh Hl Hp. unfold pulsing, Toggler.cycle in *. rewrite Hh, Hl.
  destruct (Toggler.stop_after_wait e); [exact Hp|].
  destruct (Toggler.queue_full e); simpl;
    rewrite <- ?app_assoc; simpl;
    rewrite toggler_commands_app, TogglerFacts.puts_app, Hp; simpl.
  - rewrite !app_nil_r. reflexivity.
  - rewrite length_app. simpl.
    replace (length (Toggler.puts (Toggler.log st)) + 1)%nat
      with (S (length (Toggler.puts (Toggler.log st)))) by lia.
    rewrite pulses_S. reflexivity.
Qed.

Lemma toggler_pulsing (envs : list Toggler.cycle_env) :
  Forall (fun e => Toggler.high_raises e = false
                   /\ Toggler.low_raises e = false) envs ->
  forall st, pulsing st -> pulsing (Toggler.toggler envs st).
Proof.
  induction 1 as [|e envs [Hh Hl] _ IH]; intros st Hp; simpl; [exact Hp|].
  destruct (Toggler.loop_running e); [|exact Hp].
  pose proof (cycle_pulsing st e Hh Hl Hp) as Hc.
  destruct (Toggler.cycle st e) as [st' []]; simpl in Hc;
    [apply IH|]; exact Hc.
Qed.

Lemma rising_edges_pulses (n : nat) :
  Sim.rising_edges 0 (map Sim.normalize (pulses n)) = n.
Proof.
  assert (H : forall l : list nat,
             Sim.rising_edges 0
               (map Sim.normalize (flat_map (fun _ => [1; 0]) l))
             = length l).
  { induction l as [|i l IH]; [reflexivity|]. simpl. f_equal. exact IH. }
  unfold pulses. rewrite H. apply length_seq.
Qed.

Lemma map_fst_combine {A B : Type} (l : list A) (l' : list B) :
  length l' = length l -> map fst (combine l l') = l.
Proof.
  revert l'. induction l as [|x l IH]; intros [|y l'] H; simpl in *;
    try reflexivity; try discriminate.
  f_equal. apply IH. lia.
Qed.

(** X13. On the simulated line, whose [set_value] never raises, a pulse
    generator run gets exactly one edge scheduled per SendRecord it put on
    the queue. *)
Theorem toggler_on_simulator {RS : Sim.RandomSource} (mode_arg : string)
    (base_lat_us jitter_us : Z) (seed : option Z)
    (envs : list Toggler.cycle_env) (nows : list Z) :
  Forall (fun e => Toggler.high_raises e = false
                   /\ Toggler.low_raises e = false) envs ->
  length nows
  = length (Toggler.commands
              (Toggler.log (Toggler.toggler envs Toggler.start))) ->
  exists o',
    Sim.set_values
      (combine (Toggler.commands
                  (Toggler.log (Toggler.toggler envs Toggler.start))) nows)
      (Sim.setup_sim_lines mode_arg base_lat_us jitter_us seed)
    = Some o'
    /\ length (Sim.scheduled o')
       = length (Toggler.puts
                   (Toggler.log (Toggler.toggler envs Toggler.start))).
Proof.
  intros Hok Hlen.
  pose proof (toggler_pulsing envs Hok Toggler.start eq_refl) as Hp.
  unfold pulsing in Hp.
  destruct (SimFacts.set_values_ok
              (combine (Toggler.commands
                          (Toggler.log (Toggler.toggler envs Toggler.start)))
                       nows)
              (Sim.setup_sim_lines mode_arg base_lat_us jitter_us seed)
              (SimFacts.new_model_ok _ _ _ _))
    as (o' & Hrun & Hsched & _).
  exists o'. split; [exact Hrun|]. rewrite Hsched. simpl.
  rewrite <- map_map, map_fst_combine by exact Hlen.
  rewrite Hp. apply rising_edges_pulses.
Qed.

Lemma toggler_on_simulator_witness :
  exists o',
    Sim.set_values
      (combine (Toggler.commands
                  (Toggler.log
                     (Toggler.toggler
                        [Toggler.mkEnv true false 100 false false false;
                         Toggler.mkEnv true false 200 true false false;
                         Toggler.mkEnv true false 300 false false false]
                        Toggler.start)))
               [101; 102; 301; 302])
      (Sim.setup_sim_lines (RS := Sim.lcg) "const" 500 0 (Some 42))
    = Some o'
    /\ length (Sim.scheduled o')
       = length (Toggler.puts
                   (Toggler.log
                      (Toggler.toggler
                         [Toggler.mkEnv true false 100 false false false;
                          Toggler.mkEnv true false 200 true false false;
                          Toggler.mkEnv true false 300 false false false]
                         Toggler.start))).
Proof.
  apply (toggler_on_simulator (RS := Sim.lcg) "const" 500 0 (Some 42)
           [Toggler.mkEnv true false 100 false false false;
            Toggler.mkEnv true false 200 true false false;
            Toggler.mkEnv true false 300 false false false]
           [101; 102; 301; 302]).
  - repeat constructor.
  - reflexivity.
Defined.

End ThreadFacts.

(** ** Simulator: further properties *)

Module SimMore.
Import Sim SimFacts SimRead.

Lemma lower_char_idempotent (c : ascii) :
  lower_char (lower_char c) = lower_char c.
Proof. destruct c as [[] [] [] [] [] [] [] []]; reflexivity. Qed.

Lemma lower_idempotent (s : string) : lower (lower s) = lower s.
Proof.
  induction s as [|c s IH]; simpl; [reflexivity|].
  rewrite lower_char_idempotent, IH. reflexivity.
Qed.

Section Generic.

Context {RS : RandomSource}.

(** The mode name is matched without regard to case: a model built from a
    name equals the one built from the lower-case name. *)
Theorem new_model_ignores_case (mode_arg : string) (base_ns jitter_ns : Z)
    (seed : option Z) :
  new_model mode_arg base_ns jitter_ns seed
  = new_model (lower mode_arg) base_ns jitter_ns seed.
Proof. unfold new_model. rewrite lower_idempotent. reflexivity. Qed.

Lemma sample_many_constant (m : LatencyModel) (n : nat) :
  sample_ns m = Some (base m, m) ->
  sample_many n m = Some (repeat (base m) n, m).
Proof.
  intros H. induction n as [|n IH]; [reflexivity|].
  cbn [sample_many repeat]. rewrite H, IH. reflexivity.
Qed.

Lemma new_model_plain (mode_arg : string) (base_ns jitter_ns : Z)
    (seed : option Z) :
  lower mode_arg <> "lognormal"%string -> lower mode_arg <> "heavy"%string ->
  new_model mode_arg base_ns jitter_ns seed
  = mkModel (lower mode_arg) (Z.max 0 base_ns) (Z.max 0 jitter_ns)
            (Random seed) None None None None None.
Proof.
  intros Hl Hh. unfold new_model. cbn [mode].
  destruct (String.eqb_spec (lower mode_arg) "lognormal"); [contradiction|].
  destruct (String.eqb_spec (lower mode_arg) "heavy"); [contradiction|].
  reflexivity.
Qed.

(** X15. A mode name that is none of the five falls back to [const]: every call
    returns [base] and the generator is never used. *)
Theorem unknown_mode_is_const (mode_arg : string) (base_ns jitter_ns : Z)
    (seed : option Z) (n : nat) :
  ~ In (lower mode_arg)
       ["const"; "uniform"; "normal"; "lognormal"; "heavy"]%string ->
  sample_many n (new_model mode_arg base_ns jitter_ns seed)
  = Some (repeat (Z.max 0 base_ns) n,
          new_model mode_arg base_ns jitter_ns seed).
Proof.
  intros Hnot. simpl in Hnot.
  rewrite new_model_plain by (intros H; apply Hnot; rewrite H; tauto).
  apply (sample_many_constant
           (mkModel (lower mode_arg) (Z.max 0 base_ns) (Z.max 0 jitter_ns)
                    (Random seed) None None None None None)).
  unfold sample_ns. cbn [mode base].
  repeat match goal with
         | |- context [String.eqb (lower mode_arg) ?s] =>
             destruct (String.eqb_spec (lower mode_arg) s) as [He|_];
             [exfalso; apply Hnot; rewrite He; tauto|]
         end.
  reflexivity.
Qed.

(** X16. With no jitter, the modes [uniform] and [normal] return [base] at every
    call and leave the generator untouched. *)
Theorem zero_jitter_returns_base (mode_arg : string) (base_ns jitter_ns : Z)
    (seed : option Z) (n : nat) :
  In mode_arg ["uniform"; "normal"]%string -> jitter_ns <= 0 ->
  sample_many n (new_model mode_arg base_ns jitter_ns seed)
  = Some (repeat (Z.max 0 base_ns) n,
          new_model mode_arg base_ns jitter_ns seed).
Proof.
  intros Hm Hj. replace (Z.max 0 jitter_ns) with 0 in * by lia.
  assert (Hj0 : Z.max 0 jitter_ns = 0) by lia.
  destruct Hm as [<-|[<-|[]]].
  - apply (sample_many_constant (new_model "uniform" base_ns jitter_ns seed)).
    unfold new_model, sample_ns. cbn. rewrite Hj0. reflexivity.
  - apply (sample_many_constant (new_model "normal" base_ns jitter_ns seed)).
    unfold new_model, sample_ns. cbn. rewrite Hj0. reflexivity.
Qed.

(** A property of every value of a run of calls, from a property of one
    call that the model keeps. *)
Lemma sample_many_forall (P : Z -> Prop) (K : LatencyModel -> Prop) :
  (forall m, K m ->
     exists v g, sample_ns m = Some (v, with_rng g m) /\ P v) ->
  (forall m g, K m -> K (with_rng g m)) ->
  forall n m, K m ->
    exists vs m', sample_many n m = Some (vs, m')
                  /\ length vs = n /\ Forall P vs.
Proof.
  intros Hstep Hkeep. induction n as [|n IH]; intros m Hm; simpl.
  - exists [], m. repeat split. constructor.
  - destruct (Hstep m Hm) as (v & g & -> & Hv).
    destruct (IH _ (Hkeep m g Hm)) as (vs & m' & -> & Hlen & Hall).
    exists (v :: vs), m'. repeat split; [simpl; lia|].
    constructor; assumption.
Qed.

(** X17. In [uniform] mode every sample lies between [base] and
    [base + jitter]. *)
Theorem uniform_samples_in_range (base_ns jitter_ns : Z) (seed : option Z)
    (n : nat) :
  exists vs m',
    sample_many n (new_model "uniform" base_ns jitter_ns seed)
    = Some (vs, m')
    /\ length vs = n
    /\ Forall (fun v => Z.max 0 base_ns <= v
                        <= Z.max 0 base_ns + Z.max 0 jitter_ns) vs.
Proof.
  apply (sample_many_forall _
           (fun m => mode m = "uniform"%string
                     /\ base m = Z.max 0 base_ns
                     /\ jitter m = Z.max 0 jitter_ns)).
  - intros m (Hm & Hb & Hj). unfold sample_ns. rewrite Hm, Hb, Hj. cbn.
    destruct (Z.max 0 jitter_ns =? 0) eqn:Hz.
    + exists (Z.max 0 base_ns), (rng_state m).
      replace (with_rng (rng_state m) m) with m by (destruct m; reflexivity).
      split; [reflexivity|]. lia.
    + pose proof (randint_range 0 (Z.max 0 jitter_ns) (rng_state m)
                    ltac:(lia)) as Hr.
      destruct (randint 0 (Z.max 0 jitter_ns) (rng_state m)) as [x g].
      simpl in Hr. exists (Z.max 0 base_ns + x), g.
      split; [reflexivity|lia].
  - intros m g H. exact H.
  - repeat split.
Qed.

(** X18. In [heavy] mode with no jitter every sample is [base] or the spike
    [10 * base]. *)
Theorem heavy_zero_jitter_two_values (base_ns jitter_ns : Z)
    (seed : option Z) (n : nat) :
  jitter_ns <= 0 ->
  exists vs m',
    sample_many n (new_model "heavy" base_ns jitter_ns seed) = Some (vs, m')
    /\ length vs = n
    /\ Forall (fun v => v = Z.max 0 base_ns \/ v = Z.max 0 base_ns * 10) vs.
Proof.
  intros Hj.
  apply (sample_many_forall _
           (fun m => mode m = "heavy"%string
                     /\ base m = Z.max 0 base_ns
                     /\ jitter m = 0
                     /\ heavy_prob m = Some 0.05%R
                     /\ heavy_multiplier m = Some 10)).
  - intros m (Hm & Hb & Hj0 & Hp & Hk). unfold sample_ns.
    rewrite Hm, Hb, Hj0, Hp, Hk. cbn.
    destruct (random (rng_state m)) as [u g1].
    destruct (Rlt_dec u 0.05); do 2 eexists;
      (split; [reflexivity|]); simpl; lia.
  - intros m g H. exact H.
  - change (new_model "heavy" base_ns jitter_ns seed)
      with (mkModel "heavy" (Z.max 0 base_ns) (Z.max 0 jitter_ns)
                    (Random seed) None None None (Some 0.05%R) (Some 10)).
    cbn [mode base jitter heavy_prob heavy_multiplier].
    split; [reflexivity|]. split; [reflexivity|]. split; [lia|].
    split; reflexivity.
Qed.

(** *** Scheduled timestamps *)

Lemma set_value_times (value now : Z) (o : SimOutLine) :
  model_ok (_model o) ->
  is_shutdown (_scheduler o) = false ->
  pending (_scheduler o) = Stats.np_sort (rev (scheduled o)) ->
  exists o',
    set_value value now o = Some o'
    /\ model_ok (_model o')
    /\ _last_value o' = normalize value
    /\ is_shutdown (_scheduler o') = false
    /\ pending (_scheduler o') = Stats.np_sort (rev (scheduled o'))
    /\ (if (_last_value o =? 0) && (normalize value =? 1)
        then exists delay, 0 <= delay
                           /\ sample_ns (_model o)
                              = Some (delay, _model o')
                           /\ scheduled o' = scheduled o ++ [now + delay]
        else scheduled o' = scheduled o).
Proof.
  intros Hok Hs Hp. unfold set_value.
  destruct ((_last_value o =? 0) && (normalize value =? 1)).
  - destruct (sample_ns_ok _ Hok) as (v & g & Hsample & Hv).
    rewrite Hsample. eexists. split; [reflexivity|]. cbn.
    split; [apply with_rng_ok, Hok|]. split; [reflexivity|].
    unfold schedule_edge_at. rewrite Hs. cbn.
    split; [reflexivity|]. split.
    + rewrite rev_app_distr. simpl. rewrite Hp. reflexivity.
    + exists v. repeat split; assumption.
  - eexists. split; [reflexivity|]. cbn.
    split; [exact Hok|]. split; [reflexivity|].
    split; [exact Hs|]. split; [exact Hp|reflexivity].
Qed.

Lemma set_values_times (calls : list (Z * Z)) :
  forall o,
    model_ok (_model o) ->
    is_shutdown (_scheduler o) = false ->
    pending (_scheduler o) = Stats.np_sort (rev (scheduled o)) ->
    (_last_value o = 0 \/ _last_value o = 1) ->
    exists o' later,
      set_values calls o = Some o'
      /\ scheduled o' = scheduled o ++ later
      /\ Forall2 Z.le (rising_nows (_last_value o) calls) later
      /\ pending (_scheduler o') = Stats.np_sort (rev (scheduled o')).
Proof.
  induction calls as [|[value now] calls IH]; intros o Hok Hs Hp Hl; simpl.
  - exists o, []. rewrite app_nil_r. repeat split; [constructor|exact Hp].
  - destruct (set_value_times value now o Hok Hs Hp)
      as (o1 & -> & Hok1 & Hlast & Hs1 & Hp1 & Hsched).
    assert (Hl1 : _last_value o1 = 0 \/ _last_value o1 = 1).
    { rewrite Hlast. unfold normalize. destruct (value =? 0); auto. }
    destruct (IH o1 Hok1 Hs1 Hp1 Hl1) as (o' & later & -> & Hsch & Hf & Hp').
    rewrite Hlast in Hf.
    destruct ((_last_value o =? 0) && (normalize value =? 1)).
    + destruct Hsched as (delay & Hd & _ & Hsched).
      exists o', ((now + delay) :: later). split; [reflexivity|].
      split; [rewrite Hsch, Hsched, <- app_assoc; reflexivity|].
      split; [constructor; [lia|exact Hf]|exact Hp'].
    + exists o', later. split; [reflexivity|].
      split; [rewrite Hsch, Hsched; reflexivity|].
      split; [exact Hf|exact Hp'].
Qed.

(** X19. On a line made by [setup_sim_lines], the timestamps scheduled by a
    sequence of [set_value] calls correspond one to one, in order, to the
    calls that saw a 0-to-1 transition; none of them lies before the clock
    reading of its call; and the scheduler holds exactly these timestamps,
    earliest first. *)
Theorem scheduled_never_in_the_past (mode_arg : string)
    (base_lat_us jitter_us : Z) (seed : option Z) (calls : list (Z * Z)) :
  exists o',
    set_values calls (setup_sim_lines mode_arg base_lat_us jitter_us seed)
    = Some o'
    /\ Forall2 Z.le (rising_nows 0 calls) (scheduled o')
    /\ pending (_scheduler o') = Stats.np_sort (scheduled o').
Proof.
  destruct (set_values_times calls
              (setup_sim_lines mode_arg base_lat_us jitter_us seed)
              (new_model_ok _ _ _ _) eq_refl eq_refl (or_introl eq_refl))
    as (o' & later & Hrun & Hsch & Hf & Hp).
  simpl in Hsch, Hf. subst later.
  exists o'. split; [exact Hrun|]. split; [exact Hf|].
  rewrite Hp. apply StatsMore.np_sort_permutation.
  apply Permutation_sym, Permutation_rev.
Qed.

Lemma set_values_const (base_ns jitter_ns : Z) (seed : option Z)
    (calls : list (Z * Z)) :
  forall o,
    _model o = new_model "const" base_ns jitter_ns seed ->
    exists o',
      set_values calls o = Some o'
      /\ _model o' = _model o
      /\ scheduled o'
         = scheduled o
           ++ map (fun now => now + Z.max 0 base_ns)
                  (rising_nows (_last_value o) calls).
Proof.
  induction calls as [|[value now] calls IH]; intros o Hm.
  - exists o. simpl. rewrite app_nil_r. repeat split.
  - cbn [set_values rising_nows]. unfold set_value. rewrite Hm.
    change (sample_ns (new_model "const" base_ns jitter_ns seed))
      with (Some (Z.max 0 base_ns, new_model "const" base_ns jitter_ns seed)).
    destruct ((_last_value o =? 0) && (normalize value =? 1)).
    + destruct (IH (mkOut (schedule_edge_at (now + Z.max 0 base_ns)
                                            (_scheduler o))
                          (new_model "const" base_ns jitter_ns seed)
                          (normalize value)
                          (scheduled o ++ [now + Z.max 0 base_ns]))
                   eq_refl) as (o' & Hrun & Hmod & Hsch).
      exists o'. split; [exact Hrun|]. split; [exact Hmod|].
      rewrite Hsch. cbn [scheduled _last_value map].
      rewrite <- app_assoc. reflexivity.
    + destruct (IH (mkOut (_scheduler o)
                          (new_model "const" base_ns jitter_ns seed)
                          (normalize value) (scheduled o))
                   eq_refl) as (o' & Hrun & Hmod & Hsch).
      exists o'. split; [exact Hrun|]. split; [exact Hmod|]. exact Hsch.
Qed.

(** X20. In [const] mode the simulated edge is scheduled exactly [base]
    nanoseconds after the clock reading of each call that saw a 0-to-1
    transition. *)
Theorem const_mode_schedules_base_later (base_lat_us jitter_us : Z)
    (seed : option Z) (calls : list (Z * Z)) :
  exists o',
    set_values calls (setup_sim_lines "const" base_lat_us jitter_us seed)
    = Some o'
    /\ scheduled o'
       = map (fun now => now + Z.max 0 (base_lat_us * 1000))
             (rising_nows 0 calls).
Proof.
  destruct (set_values_const (base_lat_us * 1000) (jitter_us * 1000) seed
              calls (setup_sim_lines "const" base_lat_us jitter_us seed)
              eq_refl) as (o' & Hrun & _ & Hsch).
  exists o'. split; [exact Hrun|exact Hsch].
Qed.

End Generic.

Lemma unknown_mode_is_const_witness :
  sample_many 3 (new_model (RS := lcg) "Bogus" 500 7 None)
  = Some ([500; 500; 500], new_model (RS := lcg) "Bogus" 500 7 None).
Proof.
  apply (unknown_mode_is_const (RS := lcg) "Bogus" 500 7 None 3).
  simpl. intros [H|[H|[H|[H|[H|[]]]]]]; discriminate.
Defined.

Lemma zero_jitter_returns_base_witness :
  sample_many 2 (new_model (RS := lcg) "normal" 400 0 (Some 1))
  = Some ([400; 400], new_model (RS := lcg) "normal" 400 0 (Some 1)).
Proof.
  apply (zero_jitter_returns_base (RS := lcg) "normal" 400 0 (Some 1) 2).
  - simpl. tauto.
  - lia.
Defined.

Lemma heavy_zero_jitter_two_values_witness :
  exists vs m',
    sample_many 4 (new_model (RS := lcg) "heavy" 300 0 (Some 42))
    = Some (vs, m')
    /\ length vs = 4%nat
    /\ Forall (fun v => v = Z.max 0 300 \/ v = Z.max 0 300 * 10) vs.
Proof.
  apply (heavy_zero_jitter_two_values (RS := lcg) 300 0 (Some 42) 4). lia.
Defined.

(** *** Reading the scheduled edges *)

Lemma event_ns_event_of (ts_ns : Z) : event_ns (event_of ts_ns) = ts_ns.
Proof.
  unfold event_ns, event_of. simpl.
  pose proof (Z.div_mod ts_ns 1000000000 ltac:(lia)). lia.
Qed.

Lemma schedule_all_pending (tss : list Z) :
  forall s,
    is_shutdown s = false ->
    is_shutdown (schedule_all tss s) = false
    /\ pending (schedule_all tss s)
       = fold_left (fun acc ts => Stats.insert_sorted ts acc) tss (pending s).
Proof.
  unfold schedule_all. induction tss as [|ts tss IH]; intros s Hs; simpl.
  - split; [exact Hs|reflexivity].
  - destruct (IH (schedule_edge_at ts s)) as [H1 H2].
    + unfold schedule_edge_at. rewrite Hs. reflexivity.
    + split; [exact H1|]. rewrite H2. unfold schedule_edge_at.
      rewrite Hs. reflexivity.
Qed.

Lemma fold_insert_sort (tss acc : list Z) :
  fold_left (fun acc ts => Stats.insert_sorted ts acc) tss
            (Stats.np_sort acc)
  = Stats.np_sort (rev tss ++ acc).
Proof.
  revert acc. induction tss as [|ts tss IH]; intros acc; simpl;
    [reflexivity|].
  change (Stats.insert_sorted ts (Stats.np_sort acc))
    with (Stats.np_sort (ts :: acc)).
  rewrite IH, <- app_assoc. reflexivity.
Qed.

Lemma read_all_pending (nows : list Z) :
  forall s,
    map event_ns (fst (read_all nows s))
    = firstn (length nows) (pending s) ++ skipn (length (pending s)) nows
    /\ pending (snd (read_all nows s)) = skipn (length nows) (pending s).
Proof.
  induction nows as [|now nows IH]; intros s.
  - simpl. rewrite skipn_nil at 1. split; reflexivity.
  - cbn [read_all]. unfold event_read.
    destruct (pending s) as [|ts rest] eqn:Hp.
    + destruct (IH s) as [H1 H2]. rewrite Hp in H1, H2.
      destruct (read_all nows s) as [evs s2]. cbn in *.
      rewrite event_ns_event_of, H1, H2.
      rewrite firstn_nil, !skipn_nil. cbn.
      destruct (length nows); split; reflexivity.
    + destruct (IH (mkSched rest (is_shutdown s))) as [H1 H2].
      destruct (read_all nows (mkSched rest (is_shutdown s))) as [evs s2].
      cbn in *. rewrite event_ns_event_of, H1, H2. split; reflexivity.
Qed.

(** X21. Edges are read earliest first, whatever the order they were scheduled
    in: after scheduling the timestamps [tss] on a fresh scheduler,
    successive [event_read] calls return them in ascending order; the reads
    that find the queue empty return an event made from the clock; every
    event has [nsec] between 0 and 999999999. *)
Theorem event_read_earliest_first (tss nows : list Z) :
  map event_ns
      (fst (read_all nows (schedule_all tss (mkSched [] false))))
  = firstn (length nows) (Stats.np_sort tss) ++ skipn (length tss) nows
  /\ pending (snd (read_all nows (schedule_all tss (mkSched [] false))))
     = skipn (length nows) (Stats.np_sort tss)
  /\ Forall (fun ev => 0 <= nsec ev < 1000000000)
            (fst (read_all nows (schedule_all tss (mkSched [] false)))).
Proof.
  destruct (schedule_all_pending tss (mkSched [] false) eq_refl) as [_ Hp].
  simpl pending in Hp.
  pose proof (fold_insert_sort tss []) as Hfold.
  change (Stats.np_sort []) with (@nil Z) in Hfold.
  rewrite Hfold, app_nil_r in Hp.
  rewrite (StatsMore.np_sort_permutation (rev tss) tss
             (Permutation_sym (Permutation_rev tss))) in Hp.
  destruct (read_all_pending nows (schedule_all tss (mkSched [] false)))
    as [H1 H2].
  rewrite Hp in H1, H2. rewrite StatsFacts.np_sort_length in H1.
  split; [exact H1|]. split; [exact H2|].
  generalize (schedule_all tss (mkSched [] false)). clear.
  induction nows as [|now nows IH]; intros s; [constructor|].
  cbn [read_all]. specialize (IH (snd (event_read now s))).
  destruct (event_read now s) as [ev s1] eqn:He. cbn [snd] in IH.
  destruct (read_all nows s1) as [evs s2]. cbn [fst] in *.
  constructor; [|exact IH].
  unfold event_read in He.
  destruct (pending s); injection He as <- _; simpl;
    apply Z.mod_pos_bound; lia.
Qed.

End SimMore.
